(** * cutjson: path navigation, rule evaluation and result assembly

    A shallow embedding of [cutjson/cut_json.go] and the properties of its
    path resolver, rule evaluator and result assembler.

    - Values.  A document decoded by [encoding/json] into an [interface{}]
      is a [value].  Go maps are reference objects and the assembler
      writes them in place, so maps live in a [heap] and a [value] holds
      the location of a map; a map of the document stored in the result is
      the same object in both.
    - Outcomes.  A call returns a result, returns an error or panics
      ([outcome]); Go's [int] is a 64-bit integer that wraps around.
    - State.  The rule functions take the heap and return the heap after
      their writes.
    - [encoding/json] and [reflect.DeepEqual] are outside the package:
      decoding and encoding are the two operations of a [JSONCodec], and
      [deepEqual] follows the documentation of [reflect.DeepEqual] on the
      dynamic types of [value].
    - The two sources of rules are embedded as well: the loader of
      [cutjson/config.go] ([Config]) and [buildRules] of
      [cmd/cut_json/main.go] ([Cmd]).  Reading a file, decoding a rule
      file and [strings.TrimSpace] are operations of the classes
      [Config.Source] and [Strings]. *)

From Stdlib Require Import ZArith Ascii String List Lia.
From Stdlib Require Import QArith Qcanon.
From stdpp Require Import base numbers option list strings gmap fin_maps.

Local Open Scope string_scope.
Local Open Scope list_scope.
Local Open Scope Z_scope.
Local Set Warnings "-register-all".

(** * The embedding *)

(** ** Errors and outcomes *)

(** The package-level error values, the anonymous error created in
    [applyKeepArrayElementsIfChildValueMatchesRule] and an error returned
    by [json.Marshal]. *)
Inductive error : Type :=
  | ErrInvalidJSON
  | ErrPathNotFound
  | ErrInvalidPath
  | ErrInvalidRule
  | ErrNotAnArray
  | ErrMarshal.

#[global] Instance error_eq_dec : EqDecision error.
Proof. solve_decision. Defined.

(** A Go call returns a result, returns an error, or panics. *)
Inductive outcome (A : Type) : Type :=
  | Ok (a : A)
  | Err (e : error)
  | Panic.
Arguments Ok {A} a.
Arguments Err {A} e.
Arguments Panic {A}.

(** ** Values *)

(** Locations of map objects. *)
Abbreviation loc := nat.

(** A decoded JSON number is a finite [float64]; Go's [==] on finite floats
    is equality of the rational they denote (both zeros compare equal), so
    a number is modelled by that rational. *)
Abbreviation float64 := Qc.

(** The dynamic types [json.Unmarshal] stores in an [interface{}]:
    [nil], [bool], [float64], [string], [[]interface{}] and
    [map[string]interface{}].  Slices are never written in place by this
    package, so they carry their elements; maps are written in place and
    are held by reference. *)
Inductive value : Type :=
  | VNil
  | VBool (b : bool)
  | VNum (x : float64)
  | VString (s : string)
  | VSlice (l : list value)
  | VMap (r : loc).

(** The heap: the map object stored at each location. *)
Abbreviation object := (gmap string value).
Abbreviation heap := (list object).

(** [make(map[string]interface{})]. *)
Definition makeMap (h : heap) : heap * loc := (h ++ [∅], length h).

(** The map object at [r]; a location outside the heap reads as a nil
    map, which has no keys. *)
Definition mapAt (h : heap) (r : loc) : object := default ∅ (h !! r).

(** [m[key]] as the two-valued index expression. *)
Definition mapIndex (h : heap) (r : loc) (key : string) : option value :=
  mapAt h r !! key.

(** [m[key] = v]. *)
Definition mapAssign (h : heap) (r : loc) (key : string) (v : value) : heap :=
  <[r := <[key := v]> (mapAt h r)]> h.

(** ** Path segments *)

(** [strings.Split(path, ".")]: always at least one segment. *)
Fixpoint splitDot (path : string) : list string :=
  match path with
  | EmptyString => [EmptyString]
  | String c rest =>
      if Ascii.eqb c "."%char then EmptyString :: splitDot rest
      else match splitDot rest with
           | seg :: segs => String c seg :: segs
           | [] => [String c EmptyString]
           end
  end.

(** Go's [int] on a 64-bit target: arithmetic wraps around. *)
Definition wrapInt (z : Z) : Z := (z + 2 ^ 63) mod 2 ^ 64 - 2 ^ 63.

Definition isDigit (c : ascii) : bool :=
  let n := Z.of_nat (nat_of_ascii c) in (48 <=? n) && (n <=? 57).

Definition digitVal (c : ascii) : Z := Z.of_nat (nat_of_ascii c) - 48.

(** The digit-scan loop of [navigateToValue].  [i] is the offset of the
    current character and [index] the accumulator; [None] is the
    [return nil, ErrInvalidPath] inside the loop.  The loop ranges over
    runes; it stops at the first character that is not an ASCII digit, and
    up to there runes and bytes coincide, so the scan is run on bytes. *)
Fixpoint scanIndex (i : nat) (index : Z) (segment : string) : option Z :=
  match segment with
  | EmptyString => Some index
  | String c rest =>
      if Nat.eqb i 0 && Ascii.eqb c "-"%char then scanIndex (S i) index rest
      else if negb (isDigit c) then None
      else scanIndex (S i) (wrapInt (index * 10 + digitVal c)) rest
  end.

(** [navigateToValue]: one segment per recursive call. *)
Fixpoint navigateToValue (h : heap) (data : value) (pathSegments : list string)
  : outcome value :=
  match pathSegments with
  | [] => Ok data
  | currentSegment :: remaining =>
      match data with
      | VMap r =>
          match mapIndex h r currentSegment with
          | None => Err ErrPathNotFound
          | Some val => navigateToValue h val remaining
          end
      | VSlice v =>
          match scanIndex 0 0 currentSegment with
          | None => Err ErrInvalidPath
          | Some index =>
              (* currentSegment[0] *)
              match currentSegment with
              | EmptyString => Panic
              | String c0 _ =>
                  let index := if Ascii.eqb c0 "-"%char then wrapInt (- index) else index in
                  let len := Z.of_nat (length v) in
                  let index := if index <? 0 then len + index else index in
                  if (index <? 0) || (index >=? len) then Err ErrPathNotFound
                  else match v !! Z.to_nat index with
                       | Some elem => navigateToValue h elem remaining
                       | None => Panic
                       end
              end
          end
      | _ => Err ErrPathNotFound
      end
  end.

(** [isNumeric]. *)
Fixpoint allDigits (s : string) : bool :=
  match s with
  | EmptyString => true
  | String c rest => isDigit c && allDigits rest
  end.

Definition isNumeric (s : string) : bool :=
  match s with
  | EmptyString => false
  | String c rest =>
      if Ascii.eqb c "-"%char then
        match rest with
        | EmptyString => false
        | _ => allDigits rest
        end
      else allDigits s
  end.

(** ** Result assembly *)

(** [buildResultStructure]; [current] is the map the loop variable of the
    same name refers to.  The loop body for a non-final segment creates the
    intermediate node when the key is absent, then either moves into the
    map found there or leaves the loop ([break]). *)
Fixpoint buildResultStructure (h : heap) (current : loc)
    (pathSegments : list string) (v : value) : heap :=
  match pathSegments with
  | [] => h
  | segment :: rest =>
      match rest with
      | [] => mapAssign h current segment v
      | nextSegment :: _ =>
          let h1 :=
            match mapIndex h current segment with
            | Some _ => h
            | None =>
                if isNumeric nextSegment
                then mapAssign h current segment (VSlice [])
                else let '(h', fresh) := makeMap h in
                     mapAssign h' current segment (VMap fresh)
            end in
          match mapIndex h1 current segment with
          | Some (VMap nextMap) => buildResultStructure h1 nextMap rest v
          | _ => h1
          end
      end
  end.

(** ** Deep equality *)

(** [reflect.DeepEqual] on the dynamic types of [value]: values of
    different dynamic type differ; floats, strings and booleans compare
    with [==]; slices by length and element-wise; maps are equal when they
    are the same map object or have the same length and deeply equal
    values under every key.  [fuel] bounds the number of map objects on a
    descent. *)
Definition all2 {A : Type} (eq : A → A → bool) : list A → list A → bool :=
  fix go (la lb : list A) {struct la} : bool :=
    match la, lb with
    | [], [] => true
    | x :: la', y :: lb' => eq x y && go la' lb'
    | _, _ => false
    end.

Fixpoint deepEqual (fuel : nat) (h : heap) {struct fuel} : value → value → bool :=
  fix go (a b : value) {struct a} : bool :=
    match a, b with
    | VNil, VNil => true
    | VBool x, VBool y => Bool.eqb x y
    | VNum x, VNum y => bool_decide (x = y)
    | VString x, VString y => String.eqb x y
    | VSlice la, VSlice lb => all2 go la lb
    | VMap ra, VMap rb =>
        if Nat.eqb ra rb then true
        else match fuel with
             | O => false
             | S fuel' =>
                 match h !! ra, h !! rb with
                 | Some ma, Some mb =>
                     Nat.eqb (size ma) (size mb) &&
                     forallb (λ kv, match mb !! kv.1 with
                                    | Some vb => deepEqual fuel' h kv.2 vb
                                    | None => false
                                    end) (map_to_list ma)
                 | _, _ => false
                 end
             end
    | _, _ => false
    end.

(** [valueEquals].  A descent through a heap without cycles meets each
    map object at most once, so [length h] is enough fuel. *)
Definition valueEquals (h : heap) (a b : value) : bool :=
  deepEqual (length h) h a b.

(** ** Rules *)

(** [RuleType] is an [int]; the three constants are 0, 1 and 2. *)
Definition RuleType := Z.
Definition KeepPath : RuleType := 0.
Definition KeepParentIfValueMatches : RuleType := 1.
Definition KeepArrayElementsIfChildValueMatches : RuleType := 2.

Record Rule : Type := mkRule {
  Type_ : RuleType;
  Path : string;
  Value : value;
  ChildPath : string
}.

Definition NewKeepPathRule (path : string) : Rule :=
  {| Type_ := KeepPath; Path := path; Value := VNil; ChildPath := EmptyString |}.

Definition NewKeepParentIfValueMatchesRule (path : string) (v : value) : Rule :=
  {| Type_ := KeepParentIfValueMatches; Path := path; Value := v; ChildPath := EmptyString |}.

Definition NewKeepArrayElementsIfChildValueMatchesRule
    (arrayPath childPath : string) (v : value) : Rule :=
  {| Type_ := KeepArrayElementsIfChildValueMatches;
     Path := arrayPath; Value := v; ChildPath := childPath |}.

(** The rule functions write into the map [result] and return an error or
    nil.  Each of them returns an error only before its call of
    [buildResultStructure], so an error leaves the heap as it was; a
    normal return carries the heap after the writes. *)
Definition applyKeepPathRule (h : heap) (data : value) (path : string)
    (result : loc) : outcome heap :=
  let pathSegments := splitDot path in
  match navigateToValue h data pathSegments with
  | Ok v => Ok (buildResultStructure h result pathSegments v)
  | Err e => Err e
  | Panic => Panic
  end.

Definition applyKeepParentIfValueMatchesRule (h : heap) (data : value)
    (path : string) (expectedValue : value) (result : loc) : outcome heap :=
  let pathSegments := splitDot path in
  match navigateToValue h data pathSegments with
  | Ok v =>
      if negb (valueEquals h v expectedValue) then Ok h
      else if (1 <? length pathSegments)%nat then
        let parentPathSegments := take (length pathSegments - 1) pathSegments in
        match navigateToValue h data parentPathSegments with
        | Ok parentValue =>
            Ok (buildResultStructure h result parentPathSegments parentValue)
        | Err e => Err e
        | Panic => Panic
        end
      else Ok (buildResultStructure h result pathSegments v)
  | Err e => Err e
  | Panic => Panic
  end.

(** The filter loop of [applyKeepArrayElementsIfChildValueMatchesRule];
    [filteredArray] is the slice built so far. *)
Fixpoint filterElements (h : heap) (childPathSegments : list string)
    (expectedValue : value) (array filteredArray : list value)
  : outcome (list value) :=
  match array with
  | [] => Ok filteredArray
  | element :: rest =>
      match navigateToValue h element childPathSegments with
      | Ok childValue =>
          if valueEquals h childValue expectedValue
          then filterElements h childPathSegments expectedValue rest
                 (filteredArray ++ [element])
          else filterElements h childPathSegments expectedValue rest filteredArray
      | Err _ => filterElements h childPathSegments expectedValue rest filteredArray
      | Panic => Panic
      end
  end.

Definition applyKeepArrayElementsIfChildValueMatchesRule (h : heap)
    (data : value) (arrayPath childPath : string) (expectedValue : value)
    (result : loc) : outcome heap :=
  let arrayPathSegments := splitDot arrayPath in
  match navigateToValue h data arrayPathSegments with
  | Ok (VSlice array) =>
      let childPathSegments := splitDot childPath in
      match filterElements h childPathSegments expectedValue array [] with
      | Ok filteredArray =>
          if (0 <? length filteredArray)%nat
          then Ok (buildResultStructure h result arrayPathSegments
                     (VSlice filteredArray))
          else Ok h
      | Err e => Err e
      | Panic => Panic
      end
  | Ok _ => Err ErrNotAnArray
  | Err e => Err e
  | Panic => Panic
  end.

(** The [switch] of [applyRules] for one rule. *)
Definition applyRule (h : heap) (data : value) (rule : Rule) (result : loc)
  : outcome heap :=
  if Z.eqb (Type_ rule) KeepPath then
    applyKeepPathRule h data (Path rule) result
  else if Z.eqb (Type_ rule) KeepParentIfValueMatches then
    applyKeepParentIfValueMatchesRule h data (Path rule) (Value rule) result
  else if Z.eqb (Type_ rule) KeepArrayElementsIfChildValueMatches then
    applyKeepArrayElementsIfChildValueMatchesRule h data (Path rule)
      (ChildPath rule) (Value rule) result
  else Err ErrInvalidRule.

(** The loop of [applyRules]: [err != nil && err != ErrPathNotFound]
    returns the error, anything else goes on with the next rule. *)
Fixpoint applyRulesLoop (h : heap) (data : value) (rules : list Rule)
    (result : loc) : outcome heap :=
  match rules with
  | [] => Ok h
  | rule :: rest =>
      match applyRule h data rule result with
      | Ok h' => applyRulesLoop h' data rest result
      | Err e =>
          if decide (e = ErrPathNotFound) then applyRulesLoop h data rest result
          else Err e
      | Panic => Panic
      end
  end.

(** [applyRules]: the heap after the rules and the result map. *)
Definition applyRules (h : heap) (data : value) (rules : list Rule)
  : outcome (heap * value) :=
  let '(h0, result) := makeMap h in
  match applyRulesLoop h0 data rules result with
  | Ok h' => Ok (h', VMap result)
  | Err e => Err e
  | Panic => Panic
  end.

(** ** The entry point *)

(** [encoding/json] is outside the package.  [json_Unmarshal h bytes]
    is [json.Unmarshal] into an [interface{}]: it fails or allocates the
    decoded document in the heap and returns its root; [json_Marshal]
    encodes the value reachable from a root. *)
Class JSONCodec : Type := {
  json_Unmarshal : heap → string → option (heap * value);
  json_Marshal : heap → value → option string
}.

Definition CutWithRules `{JSONCodec} (h : heap) (jsonData : string)
    (rules : list Rule) : outcome string :=
  if Nat.eqb (String.length jsonData) 0 then Err ErrInvalidJSON
  else match json_Unmarshal h jsonData with
       | None => Err ErrInvalidJSON
       | Some (h1, data) =>
           match applyRules h1 data rules with
           | Ok (h2, result) =>
               match json_Marshal h2 result with
               | Some output => Ok output
               | None => Err ErrMarshal
               end
           | Err e => Err e
           | Panic => Panic
           end
       end.

(** [Cut]. *)
Definition Cut `{JSONCodec} (h : heap) (jsonData : string) (path : string)
  : outcome string :=
  CutWithRules h jsonData [NewKeepPathRule path].

(** ** Several paths *)

(** [CutMultiple]: an entry of the result is the output of the cut or nil.
    Every turn of the loop decodes the input anew. *)
Fixpoint CutMultipleLoop `{JSONCodec} (h : heap) (jsonData : string)
    (paths : list string) (result : gmap string (option string))
  : outcome (gmap string (option string)) :=
  match paths with
  | [] => Ok result
  | path :: rest =>
      match CutWithRules h jsonData [NewKeepPathRule path] with
      | Ok cut => CutMultipleLoop h jsonData rest (<[path := Some cut]> result)
      | Err _ => CutMultipleLoop h jsonData rest (<[path := None]> result)
      | Panic => Panic
      end
  end.

Definition CutMultiple `{JSONCodec} (h : heap) (jsonData : string)
    (paths : list string) : outcome (gmap string (option string)) :=
  CutMultipleLoop h jsonData paths ∅.

(** ** Rules from a configuration ([cutjson/config.go]) *)

Module Config.

(** The errors of the loader: of reading the file, of decoding it, and
    the six errors of [buildRuleFromConfig]. *)
Inductive error : Type :=
  | ReadFailed
  | ParseFailed
  | KeepParentWithoutWhere
  | KeepParentWithoutEquals
  | KeepArrayWithoutWhere
  | KeepArrayWithoutChildPath
  | KeepArrayWithoutEquals
  | UnknownRuleType (type : string).

(** [RuleConfig], as decoded: an absent string field is empty and an
    absent value is nil. *)
Record RuleConfig : Type := mkRuleConfig {
  Type_ : string;
  Where : string;
  ChildPath : string;
  Op : string;
  Value : value
}.

(** [buildRuleFromConfig]. *)
Definition buildRuleFromConfig (config : RuleConfig) : error + Rule :=
  if String.eqb (Type_ config) "keep_path" then
    inr (NewKeepPathRule (Where config))
  else if String.eqb (Type_ config) "keep_parent_if_value_matches" then
    if String.eqb (Where config) EmptyString then inl KeepParentWithoutWhere
    else if negb (String.eqb (Op config) "equals") then inl KeepParentWithoutEquals
    else inr (NewKeepParentIfValueMatchesRule (Where config) (Value config))
  else if String.eqb (Type_ config) "keep_array_elements_if_child_value_matches" then
    if String.eqb (Where config) EmptyString then inl KeepArrayWithoutWhere
    else if String.eqb (ChildPath config) EmptyString
    then inl KeepArrayWithoutChildPath
    else if negb (String.eqb (Op config) "equals") then inl KeepArrayWithoutEquals
    else inr (NewKeepArrayElementsIfChildValueMatchesRule (Where config)
                (ChildPath config) (Value config))
  else inl (UnknownRuleType (Type_ config)).

(** The loop of [LoadRulesFromConfig]; [rules] is the slice built so far. *)
Fixpoint LoadRulesLoop (configs : list RuleConfig) (rules : list Rule)
  : error + list Rule :=
  match configs with
  | [] => inr rules
  | ruleConfig :: rest =>
      match buildRuleFromConfig ruleConfig with
      | inl err => inl err
      | inr rule => LoadRulesLoop rest (rules ++ [rule])
      end
  end.

(** [os.ReadFile], and [json.Unmarshal] into a [RulesConfig]: the rule
    configurations of the file, their values allocated in the heap. *)
Class Source : Type := {
  os_ReadFile : string → option string;
  json_UnmarshalConfig : heap → string → option (heap * list RuleConfig)
}.

(** [LoadRulesFromConfig]. *)
Definition LoadRulesFromConfig `{Source} (h : heap) (configPath : string)
  : error + (heap * list Rule) :=
  match os_ReadFile configPath with
  | None => inl ReadFailed
  | Some configData =>
      match json_UnmarshalConfig h configData with
      | None => inl ParseFailed
      | Some (h', configs) =>
          match LoadRulesLoop configs [] with
          | inl err => inl err
          | inr rules => inr (h', rules)
          end
      end
  end.

End Config.

(** ** Rules from the command line ([cmd/cut_json/main.go]) *)

(** [strings.Split(s, sep)] for a separator of one byte. *)
Fixpoint strings_Split (sep : ascii) (s : string) : list string :=
  match s with
  | EmptyString => [EmptyString]
  | String c rest =>
      if Ascii.eqb c sep then EmptyString :: strings_Split sep rest
      else match strings_Split sep rest with
           | seg :: segs => String c seg :: segs
           | [] => [String c EmptyString]
           end
  end.

(** [strings.SplitN(s, sep, 2)] for a separator of one byte: the text
    before the first separator and the text after it, or [s] alone. *)
Fixpoint strings_SplitN_2 (sep : ascii) (s : string) : list string :=
  match s with
  | EmptyString => [EmptyString]
  | String c rest =>
      if Ascii.eqb c sep then [EmptyString; rest]
      else match strings_SplitN_2 sep rest with
           | seg :: segs => String c seg :: segs
           | [] => [String c EmptyString]
           end
  end.

(** [strings.TrimSpace] is outside the program. *)
Class Strings : Type := {
  strings_TrimSpace : string → string
}.

Module Cmd.

(** The value of a condition: decoded as JSON, or the text itself when it
    is not JSON. *)
Definition parsedValue `{JSONCodec} (h : heap) (text : string) : heap * value :=
  match json_Unmarshal h text with
  | Some (h', parsedValue) => (h', parsedValue)
  | None => (h, VString text)
  end.

(** The three loops of [buildRules].  An item that is skipped is skipped
    with or without a logged warning: the log is not part of the model.

    The loop over the [-path] items. *)
Fixpoint keepPathLoop `{Strings} (pathList : list string) (rules : list Rule)
  : list Rule :=
  match pathList with
  | [] => rules
  | item :: rest =>
      let path := strings_TrimSpace item in
      if negb (String.eqb path EmptyString)
      then keepPathLoop rest (rules ++ [NewKeepPathRule path])
      else keepPathLoop rest rules
  end.

(** The loop over the [-keep-if-value] items. *)
Fixpoint keepIfValueLoop `{Strings} `{JSONCodec} (h : heap) (pairs : list string)
    (rules : list Rule) : heap * list Rule :=
  match pairs with
  | [] => (h, rules)
  | item :: rest =>
      let pair := strings_TrimSpace item in
      if String.eqb pair EmptyString then keepIfValueLoop h rest rules
      else match strings_SplitN_2 "=" pair with
           | [part0; part1] =>
               let path := strings_TrimSpace part0 in
               let value := strings_TrimSpace part1 in
               let '(h', parsed) := parsedValue h value in
               keepIfValueLoop h' rest
                 (rules ++ [NewKeepParentIfValueMatchesRule path parsed])
           | _ => keepIfValueLoop h rest rules
           end
  end.

(** The loop over the [-keep-array-match] items. *)
Fixpoint keepArrayMatchLoop `{Strings} `{JSONCodec} (h : heap)
    (pairs : list string) (rules : list Rule) : heap * list Rule :=
  match pairs with
  | [] => (h, rules)
  | item :: rest =>
      let pair := strings_TrimSpace item in
      if String.eqb pair EmptyString then keepArrayMatchLoop h rest rules
      else match strings_SplitN_2 ":" pair with
           | [pathPart0; pathPart1] =>
               let arrayPath := strings_TrimSpace pathPart0 in
               let condition := strings_TrimSpace pathPart1 in
               match strings_SplitN_2 "=" condition with
               | [condPart0; condPart1] =>
                   let childPath := strings_TrimSpace condPart0 in
                   let value := strings_TrimSpace condPart1 in
                   let '(h', parsed) := parsedValue h value in
                   keepArrayMatchLoop h' rest
                     (rules ++ [NewKeepArrayElementsIfChildValueMatchesRule
                                  arrayPath childPath parsed])
               | _ => keepArrayMatchLoop h rest rules
               end
           | _ => keepArrayMatchLoop h rest rules
           end
  end.

(** [buildRules]. *)
Definition buildRules `{Strings} `{JSONCodec} (h : heap)
    (paths keepIfValue keepArrayMatch : string) : heap * list Rule :=
  let rules := [] in
  let rules :=
    if negb (String.eqb paths EmptyString)
    then keepPathLoop (strings_Split "," paths) rules else rules in
  let '(h, rules) :=
    if negb (String.eqb keepIfValue EmptyString)
    then keepIfValueLoop h (strings_Split "," keepIfValue) rules
    else (h, rules) in
  if negb (String.eqb keepArrayMatch EmptyString)
  then keepArrayMatchLoop h (strings_Split "," keepArrayMatch) rules
  else (h, rules).

End Cmd.

(** * Vocabulary of the properties *)

(** ** Outcomes, rules and the array filter *)

Definition andThen {A B : Type} (o : outcome A) (k : A → outcome B) : outcome B :=
  match o with
  | Ok a => k a
  | Err e => Err e
  | Panic => Panic
  end.

(** A rule has a recognized type. *)
Definition recognized (rule : Rule) : Prop :=
  Type_ rule = KeepPath ∨ Type_ rule = KeepParentIfValueMatches
  ∨ Type_ rule = KeepArrayElementsIfChildValueMatches.

(** The predicate of the array rule, in the words of the specification: the child
    path resolves from the element and the value reached deep-equals the
    expected value. *)
Definition childMatches (h : heap) (childPathSegments : list string)
    (expectedValue element : value) : bool :=
  match navigateToValue h element childPathSegments with
  | Ok childValue => valueEquals h childValue expectedValue
  | _ => false
  end.

(** The child navigation from the element panics. *)
Definition childPanics (h : heap) (childPathSegments : list string)
    (element : value) : bool :=
  match navigateToValue h element childPathSegments with
  | Panic => true
  | _ => false
  end.

(** ** Decimal segments *)

(** The decimal text of a list of digits, most significant first, the
    number it denotes, and the segment with an optional sign. *)
Definition digitChar (d : nat) : ascii := ascii_of_nat (48 + d).

Fixpoint digitsText (ds : list nat) : string :=
  match ds with
  | [] => EmptyString
  | d :: ds' => String (digitChar d) (digitsText ds')
  end.

Fixpoint digitsValue (acc : Z) (ds : list nat) : Z :=
  match ds with
  | [] => acc
  | d :: ds' => digitsValue (acc * 10 + Z.of_nat d) ds'
  end.

Definition decimalSegment (negative : bool) (ds : list nat) : string :=
  if negative then String "-"%char (digitsText ds) else digitsText ds.

(** The element an index addresses, in the words of the specification: a negative
    index [i] addresses element [length + i], and an index that after this
    lies outside the array addresses nothing. *)
Definition elementAt (array : list value) (i : Z) : option value :=
  let j := if i <? 0 then Z.of_nat (length array) + i else i in
  if (j <? 0) || (j >=? Z.of_nat (length array)) then None
  else array !! Z.to_nat j.

(** ** Documents *)

(** A JSON document as a tree: objects are finite maps from keys to
    documents, so two objects are equal exactly when they have the same
    keys with equal documents under them, and two arrays when they have
    the same length with equal documents at every position. *)
Inductive json : Type :=
  | JNull
  | JBool (b : bool)
  | JNum (x : float64)
  | JStr (s : string)
  | JArr (elements : list json)
  | JObj (fields : gmap string json).

(** The document a value stands for in a heap: the tree found by following
    the map references.  [fuel] bounds the number of map objects on a
    descent, as in [deepEqual]. *)
Fixpoint denote (fuel : nat) (h : heap) {struct fuel} : value → option json :=
  fix go (v : value) {struct v} : option json :=
    match v with
    | VNil => Some JNull
    | VBool b => Some (JBool b)
    | VNum x => Some (JNum x)
    | VString s => Some (JStr s)
    | VSlice l => JArr <$> mapM go l
    | VMap r =>
        match fuel with
        | O => None
        | S fuel' =>
            match h !! r with
            | Some m =>
                if forallb (λ kv, bool_decide (is_Some (denote fuel' h kv.2)))
                     (map_to_list m)
                then Some (JObj (omap (denote fuel' h) m))
                else None
            | None => None
            end
        end
    end.

(** The document of a value, with the fuel of [valueEquals]. *)
Definition document (h : heap) (v : value) : option json :=
  denote (length h) h v.

(** ** Paths, segments and entries *)

(** No segment of the path is empty. *)
Definition noEmptySegment (pathSegments : list string) : Prop :=
  Forall (λ segment, segment ≠ EmptyString) pathSegments.

(** The paths of a rule have no empty segment: its path, and for the array
    rule its child path. *)
Definition pathsWithoutEmptySegment (rule : Rule) : Prop :=
  noEmptySegment (splitDot (Path rule))
  ∧ (Type_ rule = KeepArrayElementsIfChildValueMatches →
     noEmptySegment (splitDot (ChildPath rule))).

(** The segment has no dot. *)
Fixpoint dotFree (s : string) : bool :=
  match s with
  | EmptyString => true
  | String c rest => negb (Ascii.eqb c ".") && dotFree rest
  end.

(** Whether the byte [c] does not occur in [s]. *)
Fixpoint byteFree (c : ascii) (s : string) : bool :=
  match s with
  | EmptyString => true
  | String c' rest => negb (Ascii.eqb c' c) && byteFree c rest
  end.

(** The map reached from the map [current] along [pathSegments] through
    maps only, as the loop of [buildResultStructure] walks them. *)
Fixpoint mapChain (h : heap) (current : loc) (pathSegments : list string)
  : option loc :=
  match pathSegments with
  | [] => Some current
  | segment :: rest =>
      match mapIndex h current segment with
      | Some (VMap nextMap) => mapChain h nextMap rest
      | _ => None
      end
  end.

(** The entry [CutMultiple] stores for a path. *)
Definition cutEntry `{JSONCodec} (h : heap) (jsonData path : string)
  : option string :=
  match Cut h jsonData path with
  | Ok cut => Some cut
  | _ => None
  end.

(** ** Example documents *)

(** The number an integer literal decodes to. *)
Definition num (z : Z) : float64 := Q2Qc (inject_Z z).

Module Examples.

(** JSON text written with ['] for the quotation mark. *)
Fixpoint jsonText (s : string) : string :=
  match s with
  | EmptyString => EmptyString
  | String c rest =>
      String (if Ascii.eqb c "'"%char then ascii_of_nat 34 else c) (jsonText rest)
  end.

(** The shop document, a cut of the document of the README. *)
Definition shopText : string :=
  jsonText "{'user':{'name':'John Doe','age':30,'preferences':{'theme':'dark','notifications':true}},'orders':[{'id':1,'product':'Laptop'},{'id':2,'product':'Phone'}]}".

(** The shop document as decoded: the root map is at location 0, the user
    at 1, the preferences at 2 and the two orders at 3 and 4. *)
Definition shopHeap : heap :=
  [ {[ "user" := VMap 1%nat; "orders" := VSlice [VMap 3%nat; VMap 4%nat] ]};
    {[ "name" := VString "John Doe"; "age" := VNum (num 30);
       "preferences" := VMap 2%nat ]};
    {[ "theme" := VString "dark"; "notifications" := VBool true ]};
    {[ "id" := VNum (num 1); "product" := VString "Laptop" ]};
    {[ "id" := VNum (num 2); "product" := VString "Phone" ]} ].

Definition shop : value := VMap 0%nat.

(** The heap in which [applyRules] runs its loop on the shop document, and
    the result map it has made. *)
Definition shopAtRules : heap := (makeMap shopHeap).1.
Definition shopResult : loc := (makeMap shopHeap).2.

(** A codec that knows one document and the empty object: it decodes
    [shopText] on the empty heap and encodes a map without keys. *)
Definition shopCodec : JSONCodec := {|
  json_Unmarshal h bytes :=
    match h with
    | [] => if String.eqb bytes shopText then Some (shopHeap, shop) else None
    | _ => None
    end;
  json_Marshal h v :=
    match v with
    | VMap r => if decide (mapAt h r = ∅) then Some "{}" else None
    | _ => None
    end
|}.

(** The document with the one field [rows], an array whose only element is
    the array of 1 and 2. *)
Definition rowsHeap : heap :=
  [ {[ "rows" := VSlice [VSlice [VNum (num 1); VNum (num 2)]] ]} ].

Definition rows : value := VMap 0%nat.

(** The document with the one field [a], an object with the one field
    [items], an array of the objects (k = 1, t = 5) and (k = 2, t = 6). *)
Definition itemsHeap : heap :=
  [ {[ "a" := VMap 1%nat ]};
    {[ "items" := VSlice [VMap 2%nat; VMap 3%nat] ]};
    {[ "k" := VNum (num 1); "t" := VNum (num 5) ]};
    {[ "k" := VNum (num 2); "t" := VNum (num 6) ]} ].

Definition items : value := VMap 0%nat.

(** The shop document together with the expected value of a rule, decoded
    from a rule configuration: the object (notifications = true,
    theme = dark) at location 5. *)
Definition shopAndExpectedHeap : heap :=
  shopHeap ++ [ {[ "notifications" := VBool true; "theme" := VString "dark" ]} ].

(** The document with the one field [rows], an array of the object whose
    only key is the empty string, with value 1, and of the array of 1 and
    2. *)
Definition keyedRowsHeap : heap :=
  [ {[ "rows" := VSlice [VMap 1%nat; VSlice [VNum (num 1); VNum (num 2)]] ]};
    {[ EmptyString := VNum (num 1) ]} ].

Definition keyedRows : value := VMap 0%nat.

End Examples.

Module ConfigExamples.

(** A rule file with a path rule and a conditional rule. *)
Definition rulesText : string :=
  Examples.jsonText "{'rules':[{'type':'keep_path','where':'user.name'},{'type':'keep_parent_if_value_matches','where':'user.age','op':'equals','value':30}]}".

Definition rulesFile : list Config.RuleConfig :=
  [Config.mkRuleConfig "keep_path" "user.name" EmptyString EmptyString VNil;
   Config.mkRuleConfig "keep_parent_if_value_matches" "user.age" EmptyString
     "equals" (VNum (num 30))].

(** A file system with the one file [rules.json], and the decoder on its
    content. *)
Definition rulesSource : Config.Source := {|
  Config.os_ReadFile path :=
    if String.eqb path "rules.json" then Some rulesText else None;
  Config.json_UnmarshalConfig h configData :=
    if String.eqb configData rulesText then Some (h, rulesFile) else None
|}.

End ConfigExamples.

Module CmdExamples.

(** The white space of ASCII. *)
Definition asciiSpace (c : ascii) : bool :=
  let n := nat_of_ascii c in
  Nat.eqb n 32 || (Nat.leb 9 n && Nat.leb n 13).

Fixpoint trimLeft (s : string) : string :=
  match s with
  | EmptyString => EmptyString
  | String c rest => if asciiSpace c then trimLeft rest else s
  end.

Fixpoint trimRight (s : string) : string :=
  match s with
  | EmptyString => EmptyString
  | String c rest =>
      match trimRight rest with
      | EmptyString => if asciiSpace c then EmptyString else String c EmptyString
      | rest' => String c rest'
      end
  end.

(** [strings.TrimSpace] as it is on ASCII text. *)
Definition asciiStrings : Strings := {|
  strings_TrimSpace s := trimRight (trimLeft s)
|}.

End CmdExamples.

(** * Lemmas *)

(** Closed goals about the example documents are settled by evaluation. *)
Ltac evaluate := vm_compute; reflexivity.

(** ** Navigation *)

Example splitDot_ex : splitDot "a.b..c." = ["a"; "b"; EmptyString; "c"; EmptyString].
Proof. reflexivity. Qed.

(** Navigating along [p ++ q] is navigating along [p], then along [q]. *)
Lemma navigateToValue_app (h : heap) (p q : list string) :
  ∀ data, navigateToValue h data (p ++ q)
          = andThen (navigateToValue h data p) (λ v, navigateToValue h v q).
Proof.
  induction p as [|seg p IH]; intros data; [reflexivity|].
  cbn [app navigateToValue].
  destruct data as [| | | |l|r]; try reflexivity.
  - destruct (scanIndex 0 0 seg) as [index|]; [|reflexivity].
    destruct seg as [|c0 seg']; [reflexivity|].
    cbv zeta.
    destruct (_ || _); [reflexivity|].
    destruct (l !! _); [apply IH|reflexivity].
  - destruct (mapIndex h r seg); [apply IH|reflexivity].
Qed.

Lemma splitDot_nonempty (path : string) : splitDot path ≠ [].
Proof.
  destruct path as [|c rest]; cbn; [discriminate|].
  destruct (Ascii.eqb c "."); [discriminate|].
  destruct (splitDot rest); discriminate.
Qed.

(** A trailing dot adds an empty last segment. *)
Lemma splitDot_trailing_dot (path : string) :
  splitDot (String.append path ".") = splitDot path ++ [EmptyString].
Proof.
  induction path as [|c rest IH]; [reflexivity|].
  simpl. rewrite IH.
  destruct (Ascii.eqb c "."); [reflexivity|].
  pose proof (splitDot_nonempty rest) as Hne.
  destruct (splitDot rest); [congruence|reflexivity].
Qed.

(** The digit scan rejects a segment with a character that is not a digit,
    unless that character is a [-] at offset 0. *)
Lemma scanIndex_rejects (c : ascii) (post : string) :
  isDigit c = false →
  ∀ (pre : string) (i : nat) (index : Z),
    i ≠ O ∨ pre ≠ EmptyString ∨ c ≠ "-"%char →
    scanIndex i index (pre +:+ String c post) = None.
Proof.
  intros Hc pre.
  induction pre as [|a pre IH]; intros i index Hpos; simpl.
  - assert (Nat.eqb i 0 && Ascii.eqb c "-" = false) as ->.
    { apply andb_false_iff.
      destruct Hpos as [Hi|[Hp|Hd]]; [left|congruence|right].
      - by apply Nat.eqb_neq.
      - by apply Ascii.eqb_neq. }
    by rewrite Hc.
  - destruct (Nat.eqb i 0 && Ascii.eqb a "-"); [apply IH; by left|].
    destruct (negb (isDigit a)); [reflexivity|apply IH; by left].
Qed.

(** Allocating a map does not change what navigation reads. *)
Lemma mapAt_makeMap (h : heap) (r : loc) : mapAt (makeMap h).1 r = mapAt h r.
Proof.
  unfold mapAt, makeMap; cbn [fst].
  destruct (decide (r < length h)%nat) as [Hlt|Hge].
  - by rewrite lookup_app_l.
  - rewrite lookup_app_r by lia.
    rewrite (lookup_ge_None_2 h r) by lia.
    by destruct (r - length h)%nat.
Qed.

Lemma navigateToValue_makeMap (h : heap) (pathSegments : list string) :
  ∀ data, navigateToValue (makeMap h).1 data pathSegments
          = navigateToValue h data pathSegments.
Proof.
  induction pathSegments as [|seg segs IH]; intros data; [reflexivity|].
  cbn [navigateToValue].
  destruct data as [| | | |l|r]; try reflexivity.
  - destruct (scanIndex 0 0 seg); [|reflexivity].
    destruct seg; [reflexivity|]. cbv zeta.
    destruct (_ || _); [reflexivity|].
    destruct (l !! _); [apply IH|reflexivity].
  - unfold mapIndex. rewrite mapAt_makeMap.
    destruct (mapAt h r !! seg); [apply IH|reflexivity].
Qed.

(** ** Decimal segments and the digit scan *)

Lemma digitChar_spec (d : nat) :
  (d < 10)%nat →
  isDigit (digitChar d) = true ∧ digitVal (digitChar d) = Z.of_nat d
  ∧ Ascii.eqb (digitChar d) "-" = false.
Proof.
  intros Hd.
  do 10 (destruct d as [|d]; [by vm_compute|]). lia.
Qed.

Lemma wrapInt_small (z : Z) : - 2 ^ 63 ≤ z < 2 ^ 63 → wrapInt z = z.
Proof. intros Hz. unfold wrapInt. rewrite Z.mod_small; lia. Qed.

Lemma wrapInt_congr (a b : Z) :
  a mod 2 ^ 64 = b mod 2 ^ 64 → wrapInt a = wrapInt b.
Proof.
  intros Hab. unfold wrapInt. f_equal.
  rewrite (Z.add_mod a), (Z.add_mod b), Hab by lia. reflexivity.
Qed.

Lemma wrapInt_mod (z : Z) : wrapInt z mod 2 ^ 64 = z mod 2 ^ 64.
Proof.
  unfold wrapInt.
  rewrite <- (Z.mod_add _ 1) by lia.
  replace ((z + 2 ^ 63) mod 2 ^ 64 - 2 ^ 63 + 1 * 2 ^ 64)
    with ((z + 2 ^ 63) mod 2 ^ 64 + 2 ^ 63) by lia.
  rewrite Z.add_mod_idemp_l by lia.
  replace (z + 2 ^ 63 + 2 ^ 63) with (z + 1 * 2 ^ 64) by lia.
  by rewrite Z.mod_add by lia.
Qed.

Lemma digitsValue_congr (ds : list nat) :
  ∀ a b, a mod 2 ^ 64 = b mod 2 ^ 64 →
         digitsValue a ds mod 2 ^ 64 = digitsValue b ds mod 2 ^ 64.
Proof.
  induction ds as [|d ds IH]; intros a b Hab; [exact Hab|].
  cbn [digitsValue]. apply IH.
  rewrite (Z.add_mod (a * 10)), (Z.add_mod (b * 10)) by lia.
  rewrite (Z.mul_mod a), (Z.mul_mod b), Hab by lia. reflexivity.
Qed.

Lemma digitsValue_mono (ds : list nat) :
  ∀ a, 0 ≤ a → a ≤ digitsValue a ds.
Proof.
  induction ds as [|d ds IH]; intros a Ha; cbn [digitsValue]; [lia|].
  etrans; [|apply IH]; lia.
Qed.

(** On a text of digits the scan computes the denoted number, wrapped. *)
Lemma scanIndex_digitsText (ds : list nat) :
  Forall (λ d, (d < 10)%nat) ds →
  ∀ (i : nat) (index : Z),
    scanIndex i index (digitsText ds)
    = Some (match ds with
            | [] => index
            | _ => wrapInt (digitsValue index ds)
            end).
Proof.
  induction 1 as [|d ds Hd Hds IH]; intros i index; [reflexivity|].
  cbn [digitsText scanIndex digitsValue].
  destruct (digitChar_spec d Hd) as (Hdig & Hval & Hdash).
  rewrite Hdash, andb_false_r, Hdig, Hval. cbn [negb].
  rewrite IH. f_equal.
  destruct ds as [|d' ds']; [reflexivity|].
  apply wrapInt_congr, digitsValue_congr, wrapInt_mod.
Qed.

(** Navigation from an array along a decimal segment within [int]. *)
Lemma navigateToValue_decimalSegment (h : heap) (array : list value)
    (rest : list string) (negative : bool) (ds : list nat) :
  ds ≠ [] →
  Forall (λ d, (d < 10)%nat) ds →
  digitsValue 0 ds < 2 ^ 63 →
  navigateToValue h (VSlice array) (decimalSegment negative ds :: rest)
  = match elementAt array
            (if negative then - digitsValue 0 ds else digitsValue 0 ds) with
    | Some element => navigateToValue h element rest
    | None => Err ErrPathNotFound
    end.
Proof.
  intros Hne Hds Hmax.
  set (i := if negative then - digitsValue 0 ds else digitsValue 0 ds).
  pose proof (digitsValue_mono ds 0 (Z.le_refl 0)) as Hmin.
  assert (scanIndex 0 0 (decimalSegment negative ds)
          = Some (digitsValue 0 ds)) as Hscan.
  { destruct negative; cbn [decimalSegment scanIndex Nat.eqb andb];
      [change (Ascii.eqb "-" "-") with true; cbv iota|];
      rewrite (scanIndex_digitsText ds Hds);
      (destruct ds; [done|]); by rewrite wrapInt_small by lia. }
  cbn [navigateToValue]. rewrite Hscan.
  assert (∃ c0 tail, decimalSegment negative ds = String c0 tail
                     ∧ Ascii.eqb c0 "-" = negative) as (c0 & tail & -> & ->).
  { destruct negative; cbn [decimalSegment]; [by eexists _, _|].
    destruct ds as [|d ds']; [done|].
    apply Forall_cons in Hds as [Hd _].
    destruct (digitChar_spec d Hd) as (_ & _ & Hdash).
    cbn [digitsText]. by eexists _, _. }
  cbv zeta. unfold elementAt.
  assert ((if negative then wrapInt (- digitsValue 0 ds) else digitsValue 0 ds)
          = i) as ->.
  { unfold i. destruct negative; [|reflexivity]. apply wrapInt_small. lia. }
  set (j := if i <? 0 then Z.of_nat (length array) + i else i).
  destruct ((j <? 0) || (j >=? Z.of_nat (length array))) eqn:Hout;
    [reflexivity|].
  apply orb_false_iff in Hout as [Hlo Hhi].
  apply Z.ltb_ge in Hlo. rewrite Z.geb_leb in Hhi. apply Z.leb_gt in Hhi.
  destruct (lookup_lt_is_Some_2 array (Z.to_nat j)) as [element ->];
    [lia|reflexivity].
Qed.

(** Index [-1] and index [length - 1] address the same element. *)
Lemma elementAt_last (array : list value) :
  elementAt array (-1) = elementAt array (Z.of_nat (length array) - 1).
Proof.
  unfold elementAt. change (-1 <? 0) with true. cbv iota.
  destruct (decide (length array = 0%nat)) as [Hlen|Hlen].
  - rewrite Hlen. reflexivity.
  - assert ((Z.of_nat (length array) - 1 <? 0) = false) as -> by lia.
    reflexivity.
Qed.

(** ** The rule loop *)

(** The loop never returns [ErrPathNotFound]. *)
Lemma applyRulesLoop_not_PathNotFound (data : value) (result : loc)
    (rules : list Rule) :
  ∀ h, applyRulesLoop h data rules result ≠ Err ErrPathNotFound.
Proof.
  induction rules as [|rule rules IH]; intros h; cbn [applyRulesLoop];
    [discriminate|].
  destruct (applyRule h data rule result) as [h'|e|]; [apply IH| |discriminate].
  destruct (decide (e = ErrPathNotFound)); [apply IH|congruence].
Qed.

Lemma applyRules_not_PathNotFound (h : heap) (data : value) (rules : list Rule) :
  applyRules h data rules ≠ Err ErrPathNotFound.
Proof.
  unfold applyRules. destruct (makeMap h) as [h0 result].
  pose proof (applyRulesLoop_not_PathNotFound data result rules h0) as Hne.
  destruct (applyRulesLoop h0 data rules result); congruence.
Qed.

(** A rule of a recognized type returns the error of the navigation
    along its own path. *)
Lemma applyRule_navigation_error (h : heap) (data : value) (rule : Rule)
    (result : loc) (e : error) :
  recognized rule →
  navigateToValue h data (splitDot (Path rule)) = Err e →
  applyRule h data rule result = Err e.
Proof.
  intros [Ht|[Ht|Ht]] Hnav; unfold applyRule; rewrite Ht; cbn;
    [unfold applyKeepPathRule|unfold applyKeepParentIfValueMatchesRule
    |unfold applyKeepArrayElementsIfChildValueMatchesRule];
    cbv zeta; by rewrite Hnav.
Qed.

(** A rule of the array type whose path resolves, in the heap in which the
    rule is reached, to a value that is not an array makes the loop return
    the error. *)
Lemma applyRulesLoop_not_an_array (h : heap) (data v : value) (rule : Rule)
    (rules : list Rule) (result : loc) :
  Type_ rule = KeepArrayElementsIfChildValueMatches →
  navigateToValue h data (splitDot (Path rule)) = Ok v →
  (∀ array, v ≠ VSlice array) →
  applyRulesLoop h data (rule :: rules) result = Err ErrNotAnArray.
Proof.
  intros Ht Hnav Hv. cbn [applyRulesLoop]. unfold applyRule. rewrite Ht. cbn.
  unfold applyKeepArrayElementsIfChildValueMatchesRule; cbv zeta.
  rewrite Hnav. destruct v; try reflexivity. by destruct (Hv l).
Qed.

(** The parent path of the source, [pathSegments[:len(pathSegments)-1]],
    is the path without its last segment. *)
Lemma take_pred_length_removelast {A : Type} (l : list A) :
  take (length l - 1) l = removelast l.
Proof.
  induction l as [|a [|b l] IH]; [reflexivity..|].
  cbn [length Nat.sub] in IH |- *.
  rewrite Nat.sub_0_r in *. cbn [take removelast] in IH |- *.
  by rewrite IH.
Qed.

(** The filter loop either panics at some element or returns the slice it
    was given followed by the matching elements, in their order. *)
Lemma filterElements_filter (h : heap) (childPathSegments : list string)
    (expectedValue : value) (array : list value) :
  ∀ filteredArray,
    filterElements h childPathSegments expectedValue array filteredArray
    = if existsb (childPanics h childPathSegments) array then Panic
      else Ok (filteredArray
               ++ List.filter (childMatches h childPathSegments expectedValue) array).
Proof.
  induction array as [|element array IH]; intros filteredArray.
  - cbn. by rewrite app_nil_r.
  - cbn [filterElements existsb List.filter].
    unfold childPanics at 1, childMatches at 1.
    destruct (navigateToValue h element childPathSegments) as [childValue|e|];
      cbn [orb]; [|apply IH|reflexivity].
    destruct (valueEquals h childValue expectedValue); rewrite IH;
      [|reflexivity].
    destruct (existsb _ array); [reflexivity|].
    by rewrite <- app_assoc.
Qed.

(** The filter loop does not panic when no child navigation does. *)
Lemma existsb_childPanics_false (h : heap) (childPathSegments : list string)
    (array : list value) :
  Forall (λ element, navigateToValue h element childPathSegments ≠ Panic) array →
  existsb (childPanics h childPathSegments) array = false.
Proof.
  induction 1 as [|element array Helement Harray IH]; [reflexivity|].
  cbn [existsb]. rewrite IH, orb_false_r. unfold childPanics.
  by destruct (navigateToValue h element childPathSegments).
Qed.

(** The errors a rule of a recognized type returns are the error of the
    navigation along its own path and, for the array rule, the array
    error; the navigation of a parent path and the child navigations add
    none. *)
Lemma applyRule_error_sources (h : heap) (data : value) (rule : Rule)
    (result : loc) (e : error) :
  recognized rule →
  applyRule h data rule result = Err e
  ↔ navigateToValue h data (splitDot (Path rule)) = Err e
    ∨ (Type_ rule = KeepArrayElementsIfChildValueMatches
       ∧ e = ErrNotAnArray
       ∧ ∃ v, navigateToValue h data (splitDot (Path rule)) = Ok v
              ∧ ∀ array, v ≠ VSlice array).
Proof.
  intros [Ht|[Ht|Ht]]; unfold applyRule; rewrite Ht; cbn.
  - unfold applyKeepPathRule; cbv zeta.
    destruct (navigateToValue h data (splitDot (Path rule))) as [v|e'|].
    + split; [done|]. intros [?|(? & _)]; done.
    + split; [intros [= ->]; by left|]. intros [[= ->]|(? & _)]; done.
    + split; [done|]. intros [?|(? & _)]; done.
  - unfold applyKeepParentIfValueMatchesRule; cbv zeta.
    destruct (navigateToValue h data (splitDot (Path rule))) as [v|e'|] eqn:Hnav.
    + split; [|intros [?|(? & _)]; done].
      destruct (negb _); [done|]. destruct (_ <? _)%nat; [|done].
      rewrite take_pred_length_removelast.
      pose proof (app_removelast_last EmptyString (splitDot_nonempty (Path rule)))
        as Hsplit.
      rewrite Hsplit, navigateToValue_app in Hnav.
      by destruct (navigateToValue h data (removelast (splitDot (Path rule)))).
    + split; [intros [= ->]; by left|]. intros [[= ->]|(? & _)]; done.
    + split; [done|]. intros [?|(? & _)]; done.
  - unfold applyKeepArrayElementsIfChildValueMatchesRule; cbv zeta.
    destruct (navigateToValue h data (splitDot (Path rule))) as [v|e'|] eqn:Hnav.
    + assert ((∃ array, v = VSlice array) ∨ ¬ (∃ array, v = VSlice array))
        as [[array ->]|Hother]
        by (destruct v; first [by left; eexists|by right; intros [? ?]]).
      * rewrite filterElements_filter. split.
        -- destruct (existsb _ array); [done|]. by destruct (_ <? _)%nat.
        -- intros [?|(_ & _ & v' & [= <-] & Hv')]; [done|]. by destruct (Hv' array).
      * assert (∀ array, v ≠ VSlice array) as Hv by (intros array ->; eauto).
        split.
        -- intros Herr. right. split; [done|].
           split; [destruct v; by first [injection Herr as <-|destruct (Hv l)]|].
           eauto.
        -- intros [?|(_ & -> & _)]; [done|].
           destruct v; first [reflexivity|by destruct (Hv l)].
    + split; [intros [= ->]; by left|]. intros [[= ->]|(_ & _ & v' & ? & _)]; done.
    + split; [done|]. intros [?|(_ & _ & v' & ? & _)]; done.
Qed.

(** ** Assembly into a fresh map *)

Lemma mapAt_Some (h : heap) (r : loc) (m : gmap string value) :
  h !! r = Some m → mapAt h r = m.
Proof. unfold mapAt. by intros ->. Qed.

Lemma lookup_mapAssign_eq (h : heap) (r : loc) (key : string) (v : value) :
  (r < length h)%nat →
  mapAssign h r key v !! r = Some (<[key := v]> (mapAt h r)).
Proof. intros Hr. unfold mapAssign. by rewrite list_lookup_insert_eq. Qed.

Lemma lookup_mapAssign_ne (h : heap) (r r' : loc) (key : string) (v : value) :
  r ≠ r' → mapAssign h r key v !! r' = h !! r'.
Proof. intros Hr. unfold mapAssign. by rewrite list_lookup_insert_ne. Qed.

Lemma length_mapAssign (h : heap) (r : loc) (key : string) (v : value) :
  length (mapAssign h r key v) = length h.
Proof. unfold mapAssign. by rewrite length_insert. Qed.

(** One turn of the assembly loop at a segment that is not the last. *)
Lemma buildResultStructure_step (h : heap) (current : loc)
    (segment nextSegment : string) (rest : list string) (v : value) :
  buildResultStructure h current (segment :: nextSegment :: rest) v
  = let h1 :=
      match mapIndex h current segment with
      | Some _ => h
      | None =>
          if isNumeric nextSegment
          then mapAssign h current segment (VSlice [])
          else mapAssign (makeMap h).1 current segment (VMap (makeMap h).2)
      end in
    match mapIndex h1 current segment with
    | Some (VMap nextMap) =>
        buildResultStructure h1 nextMap (nextSegment :: rest) v
    | _ => h1
    end.
Proof. reflexivity. Qed.

(** A new intermediate map: the key is absent and the next segment is not
    numeric. *)
Lemma buildResultStructure_new_map (h : heap) (current : loc)
    (segment nextSegment : string) (rest : list string) (v : value) :
  (current < length h)%nat →
  mapIndex h current segment = None →
  isNumeric nextSegment = false →
  buildResultStructure h current (segment :: nextSegment :: rest) v
  = buildResultStructure (mapAssign (h ++ [∅]) current segment (VMap (length h)))
      (length h) (nextSegment :: rest) v.
Proof.
  intros Hlt Habsent Hnext.
  rewrite buildResultStructure_step, Habsent, Hnext. cbv zeta.
  unfold makeMap; cbn [fst snd]. unfold mapIndex.
  assert (current < length (h ++ [∅]))%nat as Hlt'
    by (rewrite length_app; cbn; lia).
  rewrite (mapAt_Some _ _ _ (lookup_mapAssign_eq _ current segment
                               (VMap (length h)) Hlt')).
  by rewrite lookup_insert_eq.
Qed.

(** Assembly from a map without keys, along a path none of whose segments
    after the first is numeric: every intermediate node is a new map, the
    value ends up at the path, and no other map that was there is
    written. *)
Lemma buildResultStructure_fresh (v : value) (pathSegments : list string) :
  ∀ (h : heap) (current : loc),
    pathSegments ≠ [] →
    Forall (λ s, isNumeric s = false) (tail pathSegments) →
    h !! current = Some ∅ →
    navigateToValue (buildResultStructure h current pathSegments v)
      (VMap current) pathSegments = Ok v
    ∧ (length h ≤ length (buildResultStructure h current pathSegments v))%nat
    ∧ ∀ r, (r < length h)%nat → r ≠ current →
           buildResultStructure h current pathSegments v !! r = h !! r.
Proof.
  induction pathSegments as [|segment rest IH]; intros h current Hne Hnum Hcur;
    [done|].
  pose proof (lookup_lt_Some _ _ _ Hcur) as Hlt.
  destruct rest as [|nextSegment rest'].
  - cbn [buildResultStructure navigateToValue]. unfold mapIndex.
    rewrite (mapAt_Some _ _ _ (lookup_mapAssign_eq h current segment v Hlt)).
    rewrite lookup_insert_eq, length_mapAssign.
    split; [reflexivity|split; [lia|]].
    intros r _ Hr. by apply lookup_mapAssign_ne.
  - cbn [tail] in Hnum. apply Forall_cons in Hnum as [Hnext Hrest].
    rewrite buildResultStructure_new_map;
      [|done|unfold mapIndex; by rewrite (mapAt_Some _ _ _ Hcur)|done].
    set (fresh := length h).
    set (h2 := mapAssign (h ++ [∅]) current segment (VMap fresh)).
    assert (length h2 = S (length h)) as Hlen2.
    { unfold h2. rewrite length_mapAssign, length_app. cbn. lia. }
    assert (h2 !! current = Some (<[segment := VMap fresh]> ∅)) as Hcur2.
    { unfold h2. rewrite lookup_mapAssign_eq by (rewrite length_app; cbn; lia).
      rewrite (mapAt_Some _ _ ∅); [done|]. by rewrite lookup_app_l. }
    assert (h2 !! fresh = Some ∅) as Hfresh2.
    { unfold h2. rewrite lookup_mapAssign_ne by (unfold fresh; lia).
      unfold fresh. by rewrite lookup_app_r, Nat.sub_diag by lia. }
    destruct (IH h2 fresh ltac:(done) Hrest Hfresh2) as (Hnav & Hlen & Hframe).
    split; [|split].
    + change (navigateToValue ?h' (VMap current) (segment :: ?p))
        with (match mapIndex h' current segment with
              | None => Err ErrPathNotFound
              | Some val => navigateToValue h' val p
              end).
      unfold mapIndex.
      rewrite (mapAt_Some _ current (<[segment := VMap fresh]> ∅)).
      * rewrite lookup_insert_eq. exact Hnav.
      * rewrite Hframe by (unfold fresh in *; lia). exact Hcur2.
    + lia.
    + intros r Hr Hrc. rewrite Hframe by (unfold fresh in *; lia).
      unfold h2. rewrite lookup_mapAssign_ne by done.
      by rewrite lookup_app_l.
Qed.

(** ** Deep equality and documents *)

(** Induction on values, with the elements of a slice covered. *)
Lemma value_nested_ind (P : value → Prop) :
  P VNil → (∀ b, P (VBool b)) → (∀ x, P (VNum x)) → (∀ s, P (VString s)) →
  (∀ l, Forall P l → P (VSlice l)) → (∀ r, P (VMap r)) →
  ∀ v, P v.
Proof.
  intros HNil HBool HNum HString HSlice HMap.
  fix IH 1.
  intros [|b|x|s|l|r];
    [exact HNil|apply HBool|apply HNum|apply HString| |apply HMap].
  apply HSlice. induction l as [|a l IHl]; constructor; [apply IH|exact IHl].
Qed.

Lemma deepEqual_slice (fuel : nat) (h : heap) (la lb : list value) :
  deepEqual fuel h (VSlice la) (VSlice lb) = all2 (deepEqual fuel h) la lb.
Proof. by destruct fuel. Qed.

Lemma denote_slice (fuel : nat) (h : heap) (l : list value) :
  denote fuel h (VSlice l) = JArr <$> mapM (denote fuel h) l.
Proof. by destruct fuel. Qed.

Lemma forallb_map_to_list (g : string * value → bool) (m : gmap string value) :
  forallb g (map_to_list m) = true ↔ ∀ k v, m !! k = Some v → g (k, v) = true.
Proof.
  rewrite forallb_forall. split.
  - intros Hall k v Hkv. apply Hall, list_elem_of_In.
    by apply elem_of_map_to_list.
  - intros Hall [k v] Hin. apply Hall.
    by apply elem_of_map_to_list, list_elem_of_In.
Qed.

Section Compare.

Variable eq : value → value → bool.
Variable doc : value → option json.

(** Element-wise comparison of two slices decides equality of the lists of
    their documents, when comparison of elements decides equality of their
    documents. *)
Lemma all2_documents (la : list value) :
  Forall (λ a, ∀ b ta tb, doc a = Some ta → doc b = Some tb →
                          eq a b = true ↔ ta = tb) la →
  ∀ lb tas tbs, mapM doc la = Some tas → mapM doc lb = Some tbs →
                all2 eq la lb = true ↔ tas = tbs.
Proof.
  induction 1 as [|a la Ha Hla IH]; intros lb tas tbs Has Hbs.
  - apply mapM_Some_1, Forall2_nil_inv_l in Has as ->.
    destruct lb as [|b lb].
    + by apply mapM_Some_1, Forall2_nil_inv_l in Hbs as ->.
    + apply mapM_Some_1, Forall2_cons_inv_l in Hbs as (tb & tbs' & _ & _ & ->).
      cbn. split; discriminate.
  - apply mapM_Some_1, Forall2_cons_inv_l in Has as (ta & tas' & Hta & Htas & ->).
    destruct lb as [|b lb].
    + apply mapM_Some_1, Forall2_nil_inv_l in Hbs as ->.
      cbn. split; discriminate.
    + apply mapM_Some_1, Forall2_cons_inv_l in Hbs as (tb & tbs' & Htb & Htbs & ->).
      cbn [all2]. rewrite andb_true_iff, (Ha b ta tb Hta Htb).
      rewrite (IH lb tas' tbs') by (by apply mapM_Some_2).
      split; [intros [-> ->]; reflexivity|intros [= -> ->]; done].
Qed.

Hypothesis eq_doc :
  ∀ a b ta tb, doc a = Some ta → doc b = Some tb → eq a b = true ↔ ta = tb.

(** Comparison of two maps whose values all have documents: same size and
    deeply equal values under every key of the first, against equality of
    the maps of documents. *)
Lemma map_compare_documents (ma mb : gmap string value) :
  (∀ k v, ma !! k = Some v → is_Some (doc v)) →
  (∀ k v, mb !! k = Some v → is_Some (doc v)) →
  Nat.eqb (size ma) (size mb) &&
  forallb (λ kv, match mb !! kv.1 with
                 | Some vb => eq kv.2 vb
                 | None => false
                 end) (map_to_list ma) = true
  ↔ omap doc ma = omap doc mb.
Proof.
  intros Hma Hmb.
  rewrite andb_true_iff, Nat.eqb_eq, forallb_map_to_list. cbn [fst snd].
  split.
  - intros [Hsize Hall].
    assert (dom ma = dom mb) as Hdom.
    { apply set_subseteq_size_eq.
      - intros k [va Hva]%elem_of_dom. specialize (Hall k va Hva).
        apply elem_of_dom. destruct (mb !! k); [eauto|discriminate].
      - rewrite !size_dom. lia. }
    apply map_eq. intros k. rewrite !lookup_omap.
    destruct (ma !! k) as [va|] eqn:Hva.
    + specialize (Hall k va Hva).
      destruct (mb !! k) as [vb|] eqn:Hvb; [|discriminate].
      destruct (Hma k va Hva) as [ta Hta], (Hmb k vb Hvb) as [tb Htb].
      cbn. rewrite Hta, Htb. f_equal. by apply (eq_doc va vb).
    + apply not_elem_of_dom in Hva. rewrite Hdom in Hva.
      apply not_elem_of_dom in Hva. by rewrite Hva.
  - intros Hdocs.
    assert (∀ k, is_Some (ma !! k) ↔ is_Some (mb !! k)) as Hkeys.
    { intros k. pose proof (f_equal (λ m, m !! k) Hdocs) as Hk. cbn in Hk.
      rewrite !lookup_omap in Hk.
      destruct (ma !! k) as [va|] eqn:Hva, (mb !! k) as [vb|] eqn:Hvb;
        try done.
      - destruct (Hma k va Hva) as [ta Hta]. cbn in Hk. congruence.
      - destruct (Hmb k vb Hvb) as [tb Htb]. cbn in Hk. congruence. }
    split.
    + rewrite <- !(size_dom (D := gset string)). f_equal.
      apply set_eq. intros k. rewrite !elem_of_dom. apply Hkeys.
    + intros k va Hva.
      destruct (proj1 (Hkeys k) (mk_is_Some _ _ Hva)) as [vb Hvb].
      rewrite Hvb.
      pose proof (f_equal (λ m, m !! k) Hdocs) as Hk. cbn in Hk.
      rewrite !lookup_omap, Hva, Hvb in Hk. cbn in Hk.
      destruct (Hma k va Hva) as [ta Hta], (Hmb k vb Hvb) as [tb Htb].
      apply (eq_doc va vb ta tb Hta Htb). congruence.
Qed.

End Compare.

(** The values of a map all have documents when the map has one. *)
Lemma denote_map (fuel : nat) (h : heap) (r : loc) (t : json) :
  denote (S fuel) h (VMap r) = Some t →
  ∃ m, h !! r = Some m
       ∧ (∀ k v, m !! k = Some v → is_Some (denote fuel h v))
       ∧ t = JObj (omap (denote fuel h) m).
Proof.
  cbn. destruct (h !! r) as [m|]; [|discriminate].
  destruct (forallb _ _) eqn:Hall; [|discriminate].
  intros [= <-]. exists m. split; [reflexivity|split; [|reflexivity]].
  intros k v Hkv.
  rewrite forallb_map_to_list in Hall.
  specialize (Hall k v Hkv). by apply bool_decide_eq_true in Hall.
Qed.

(** The document of a value has the kind of the value. *)
Lemma denote_kind (fuel : nat) (h : heap) (v : value) (t : json) :
  denote fuel h v = Some t →
  match v, t with
  | VNil, JNull => True
  | VBool b, JBool b' => b = b'
  | VNum x, JNum x' => x = x'
  | VString s, JStr s' => s = s'
  | VSlice l, JArr ts => mapM (denote fuel h) l = Some ts
  | VMap r, JObj _ => ∃ fuel', fuel = S fuel'
  | _, _ => False
  end.
Proof.
  destruct v as [|b|x|s|l|r].
  1-4: destruct fuel; cbn; intros [= <-]; done.
  - rewrite denote_slice. destruct (mapM _ l); cbn; intros [= <-]; done.
  - destruct fuel as [|fuel']; [discriminate|].
    intros (m & _ & _ & ->)%denote_map. by exists fuel'.
Qed.

(** With the same fuel, deep equality of two values that have documents
    decides equality of the documents. *)
Lemma deepEqual_denote (fuel : nat) (h : heap) :
  ∀ a b ta tb,
    denote fuel h a = Some ta → denote fuel h b = Some tb →
    deepEqual fuel h a b = true ↔ ta = tb.
Proof.
  induction fuel as [|fuel IHfuel];
    (intros a; induction a as [|x|x|x|la IHla|ra] using value_nested_ind;
     intros b ta tb Ha Hb;
     pose proof (denote_kind _ _ _ _ Ha) as Ka;
     pose proof (denote_kind _ _ _ _ Hb) as Kb;
     destruct ta; try done; destruct b; destruct tb; try done;
     try (cbn; split; discriminate)).
  1, 5: subst; destruct b0, b1; cbn; split; congruence.
  1, 4: subst; cbn; rewrite bool_decide_eq_true; split; congruence.
  1, 3: subst; cbn; rewrite String.eqb_eq; split; congruence.
  1, 2: rewrite deepEqual_slice,
          (all2_documents _ (denote _ h) la IHla l elements elements0 Ka Kb);
        split; congruence.
  apply denote_map in Ha as (ma & Hma & Hdoca & ->).
  apply denote_map in Hb as (mb & Hmb & Hdocb & ->).
  change (deepEqual (S fuel) h (VMap ra) (VMap r))
    with (if Nat.eqb ra r then true
          else match h !! ra, h !! r with
               | Some ma, Some mb =>
                   Nat.eqb (size ma) (size mb) &&
                   forallb (λ kv, match mb !! kv.1 with
                                  | Some vb => deepEqual fuel h kv.2 vb
                                  | None => false
                                  end) (map_to_list ma)
               | _, _ => false
               end).
  destruct (Nat.eqb_spec ra r) as [->|Hne].
  - split; [intros _|done]. congruence.
  - rewrite Hma, Hmb.
    rewrite (map_compare_documents _ (denote fuel h) IHfuel ma mb Hdoca Hdocb).
    split; congruence.
Qed.

(** The document does not depend on the fuel, once there is enough. *)
Lemma denote_more_fuel (h : heap) (fuel : nat) :
  ∀ v t, denote fuel h v = Some t → denote (S fuel) h v = Some t.
Proof.
  induction fuel as [|fuel IHfuel];
    (intros v; induction v as [|x|x|x|l IHl|r] using value_nested_ind;
     intros t Ht; try exact Ht).
  - rewrite denote_slice in Ht |- *.
    destruct (mapM (denote 0 h) l) as [ts|] eqn:Hts; [|discriminate].
    apply mapM_Some_1 in Hts.
    rewrite (mapM_Some_2 (denote 1 h) l ts); [exact Ht|].
    clear Ht. induction Hts as [|v tv l ts Hv Hts IH]; [constructor|].
    apply Forall_cons in IHl as [Hv' Hl']. constructor; auto.
  - discriminate.
  - rewrite denote_slice in Ht |- *.
    destruct (mapM (denote (S fuel) h) l) as [ts|] eqn:Hts; [|discriminate].
    apply mapM_Some_1 in Hts.
    rewrite (mapM_Some_2 (denote (S (S fuel)) h) l ts); [exact Ht|].
    clear Ht. induction Hts as [|v tv l ts Hv Hts IH]; [constructor|].
    apply Forall_cons in IHl as [Hv' Hl']. constructor; auto.
  - apply denote_map in Ht as (m & Hm & Hdoc & ->).
    change (denote (S (S fuel)) h (VMap r))
      with (match h !! r with
            | Some m =>
                if forallb (λ kv, bool_decide (is_Some (denote (S fuel) h kv.2)))
                     (map_to_list m)
                then Some (JObj (omap (denote (S fuel) h) m))
                else None
            | None => None
            end).
    rewrite Hm.
    assert (forallb (λ kv, bool_decide (is_Some (denote (S fuel) h kv.2)))
              (map_to_list m) = true) as ->.
    { apply forallb_map_to_list. intros k v Hkv. apply bool_decide_eq_true.
      destruct (Hdoc k v Hkv) as [tv Htv]. exists tv. by apply IHfuel. }
    do 2 f_equal. apply map_eq. intros k. rewrite !lookup_omap.
    destruct (m !! k) as [v|] eqn:Hkv; [|reflexivity]. cbn.
    destruct (Hdoc k v Hkv) as [tv Htv]. rewrite Htv. by apply IHfuel.
Qed.

Lemma all2_lookup (eq : value → value → bool) (la : list value) :
  ∀ lb, all2 eq la lb = true
        ↔ length la = length lb
          ∧ ∀ (i : nat) x y, la !! i = Some x → lb !! i = Some y → eq x y = true.
Proof.
  induction la as [|a la IH]; intros [|b lb]; cbn [all2 length].
  - split; [intros _; split; [done|]; intros i x y Hx; done|done].
  - split; [done|intros [? _]; done].
  - split; [done|intros [? _]; done].
  - rewrite andb_true_iff, IH. split.
    + intros (Hab & Hlen & Hall). split; [by rewrite Hlen|].
      intros [|i] x y Hx Hy; cbn in Hx, Hy; [congruence|eauto].
    + intros [Hlen Hall]. split; [exact (Hall 0%nat a b eq_refl eq_refl)|].
      split; [congruence|]. intros i x y Hx Hy. exact (Hall (S i) x y Hx Hy).
Qed.

(** A value deep-equals itself. *)
Lemma deepEqual_refl (fuel : nat) (h : heap) (a : value) :
  deepEqual fuel h a a = true.
Proof.
  induction a as [|x|x|x|la IHla|ra] using value_nested_ind.
  - by destruct fuel.
  - by destruct fuel, x.
  - destruct fuel; cbn; by apply bool_decide_eq_true.
  - destruct fuel; cbn; apply String.eqb_refl.
  - rewrite deepEqual_slice.
    induction IHla as [|a la Ha Hla IH]; [reflexivity|].
    cbn [all2]. by rewrite Ha, IH.
  - destruct fuel; cbn; by rewrite Nat.eqb_refl.
Qed.

(** X7.  The part of C1 that holds: for a path none of whose segments after
    the first is numeric, the single rule [KeepPath] leaves the maps of the
    document as they were and puts the value found at the path under the
    same path of the result. *)
Lemma KeepPath_round_trip (h : heap) (data v : value) (path : string) :
  navigateToValue h data (splitDot path) = Ok v →
  Forall (λ s, isNumeric s = false) (tail (splitDot path)) →
  ∃ h', applyRules h data [NewKeepPathRule path] = Ok (h', VMap (length h))
        ∧ navigateToValue h' (VMap (length h)) (splitDot path) = Ok v
        ∧ valueEquals h' v v = true
        ∧ ∀ r, (r < length h)%nat → h' !! r = h !! r.
Proof.
  intros Hnav Hobj.
  unfold applyRules, makeMap. cbn [applyRulesLoop].
  unfold applyRule, NewKeepPathRule; cbn.
  unfold applyKeepPathRule; cbv zeta.
  pose proof (navigateToValue_makeMap h (splitDot path) data) as Hmk.
  unfold makeMap in Hmk; cbn [fst] in Hmk. rewrite Hmk, Hnav.
  assert ((h ++ [∅]) !! length h = Some (∅ : gmap string value)) as Hres
    by (by rewrite lookup_app_r, Nat.sub_diag by lia).
  destruct (buildResultStructure_fresh v (splitDot path) (h ++ [∅]) (length h)
              (splitDot_nonempty path) Hobj Hres) as (Hback & _ & Hframe).
  eexists. split; [reflexivity|]. split; [exact Hback|].
  split; [apply deepEqual_refl|].
  intros r Hr. rewrite Hframe by (rewrite ?length_app; cbn; lia).
  by rewrite lookup_app_l.
Qed.

(** * The claims *)

(** C1 fails when the path has an array index.  On the shop document the
    path [orders.0] resolves to the first order; [applyRules] with the
    single rule [KeepPath] puts an empty array under [orders] and stops,
    and the same path does not resolve in the result. *)
Theorem KeepPath_array_index_is_lost :
  navigateToValue Examples.shopHeap Examples.shop (splitDot "orders.0")
  = Ok (VMap 3%nat)
  ∧ applyRules Examples.shopHeap Examples.shop [NewKeepPathRule "orders.0"]
    = Ok (Examples.shopHeap ++ [ {[ "orders" := VSlice [] ]} ], VMap 5%nat)
  ∧ navigateToValue (Examples.shopHeap ++ [ {[ "orders" := VSlice [] ]} ])
      (VMap 5%nat) (splitDot "orders.0")
    = Err ErrPathNotFound.
Proof. split; [|split]; evaluate. Qed.

(** C2 fails.  In the items document the path [a.items.1.t] resolves to the
    number 6, and the array rule on that path alone aborts the call.  After
    [KeepPath a] the result shares the map under [a] with the document, so
    the array rule on [a.items] writes its filtered array into the
    document itself; [a.items.1.t] is then not found, the last rule is
    skipped, and the call returns a result instead of the error. *)
Theorem not_an_array_is_missed_after_shared_write :
  navigateToValue Examples.itemsHeap Examples.items (splitDot "a.items.1.t")
  = Ok (VNum (num 6))
  ∧ applyRules Examples.itemsHeap Examples.items
      [NewKeepArrayElementsIfChildValueMatchesRule "a.items.1.t" "x" (VNum (num 1))]
    = Err ErrNotAnArray
  ∧ applyRules Examples.itemsHeap Examples.items
      [NewKeepPathRule "a";
       NewKeepArrayElementsIfChildValueMatchesRule "a.items" "k" (VNum (num 2));
       NewKeepArrayElementsIfChildValueMatchesRule "a.items.1.t" "x" (VNum (num 1))]
    = Ok ([ {[ "a" := VMap 1%nat ]};
            {[ "items" := VSlice [VMap 3%nat] ]};
            {[ "k" := VNum (num 1); "t" := VNum (num 5) ]};
            {[ "k" := VNum (num 2); "t" := VNum (num 6) ]};
            {[ "a" := VMap 1%nat ]} ], VMap 4%nat).
Proof. split; [|split]; evaluate. Qed.

(** C3.  Navigation is partial: when a path reaches an array and the next
    segment is the empty string, the digit scan accepts the segment and
    the read of its first byte is out of bounds, so the call panics; it
    returns neither [ErrInvalidPath] nor [ErrPathNotFound]. *)
Theorem navigateToValue_empty_segment_panics (h : heap) (data : value)
    (pathSegments rest : list string) (array : list value) :
  navigateToValue h data pathSegments = Ok (VSlice array) →
  navigateToValue h data (pathSegments ++ EmptyString :: rest) = Panic.
Proof.
  intros Hnav. rewrite navigateToValue_app, Hnav. reflexivity.
Qed.

Lemma navigateToValue_empty_segment_panics_witness :
  navigateToValue Examples.shopHeap Examples.shop (splitDot "orders.") = Panic.
Proof.
  apply (navigateToValue_empty_segment_panics Examples.shopHeap Examples.shop
           ["orders"] [] [VMap 3%nat; VMap 4%nat]).
  vm_compute. reflexivity.
Defined.

(** The same at the entry point: a trailing dot after a path to an array
    makes [Cut] panic. *)
Lemma Cut_trailing_dot_panics `{JSONCodec} (h h1 : heap) (jsonData path : string)
    (data : value) (array : list value) :
  String.length jsonData ≠ O →
  json_Unmarshal h jsonData = Some (h1, data) →
  navigateToValue h1 data (splitDot path) = Ok (VSlice array) →
  Cut h jsonData (String.append path ".") = Panic.
Proof.
  intros Hlen Hdec Hnav. unfold Cut, CutWithRules.
  apply Nat.eqb_neq in Hlen. rewrite Hlen, Hdec.
  unfold applyRules. destruct (makeMap h1) as [h0 result] eqn:Hmk.
  cbn [applyRulesLoop]. unfold applyRule, NewKeepPathRule; cbn.
  unfold applyKeepPathRule; cbv zeta.
  rewrite splitDot_trailing_dot.
  assert (h0 = (makeMap h1).1) as -> by (by rewrite Hmk).
  rewrite navigateToValue_makeMap.
  by rewrite navigateToValue_app, Hnav.
Qed.

(** C4, as stated, fails: an error of a child navigation is a navigation
    error other than [ErrPathNotFound], and it does not abort the call.  In
    the rows document the child path [first] of the array rule yields
    [ErrInvalidPath] from the only element of [rows]; the rule returns no
    error, the loop goes on, and the rule after it keeps [rows]. *)
Lemma child_navigation_error_does_not_abort :
  Forall recognized
    [NewKeepArrayElementsIfChildValueMatchesRule "rows" "first" (VNum (num 1));
     NewKeepPathRule "rows"]
  ∧ navigateToValue (makeMap Examples.rowsHeap).1
      (VSlice [VNum (num 1); VNum (num 2)]) (splitDot "first")
    = Err ErrInvalidPath
  ∧ applyRules Examples.rowsHeap Examples.rows
      [NewKeepArrayElementsIfChildValueMatchesRule "rows" "first" (VNum (num 1));
       NewKeepPathRule "rows"]
    = Ok (Examples.rowsHeap
          ++ [ {[ "rows" := VSlice [VSlice [VNum (num 1); VNum (num 2)]] ]} ],
          VMap 1%nat).
Proof.
  split; [|split; evaluate].
  apply List.Forall_cons; [right; by right|].
  apply List.Forall_cons; [by left|apply List.Forall_nil].
Qed.

(** C4, amended.  [CutWithRules] never returns [ErrPathNotFound].  A rule
    of a recognized type whose own path is not found returns that error,
    and the loop goes on with the next rule on the unchanged heap.  Any
    other error of the navigation along the rule's own path, and the array
    error of a path that resolves to a value that is not an array, make the
    loop return that error as soon as it reaches the rule.  These are the
    only errors a rule returns: the errors of the child navigations of the
    array rule are not among them, and when no child navigation panics the
    array rule on an array returns normally, having kept the elements that
    match and left out the others, and the loop goes on. *)
Theorem CutWithRules_swallows_PathNotFound `{JSONCodec} :
  (∀ (h : heap) (jsonData : string) (rules : list Rule),
     CutWithRules h jsonData rules ≠ Err ErrPathNotFound)
  ∧ (∀ (h : heap) (data : value) (rule : Rule) (rest : list Rule) (result : loc),
       recognized rule →
       navigateToValue h data (splitDot (Path rule)) = Err ErrPathNotFound →
       applyRule h data rule result = Err ErrPathNotFound
       ∧ applyRulesLoop h data (rule :: rest) result
         = applyRulesLoop h data rest result)
  ∧ (∀ (h : heap) (data : value) (rule : Rule) (rest : list Rule) (result : loc)
       (e : error),
       recognized rule →
       e ≠ ErrPathNotFound →
       navigateToValue h data (splitDot (Path rule)) = Err e
       ∨ (Type_ rule = KeepArrayElementsIfChildValueMatches
          ∧ e = ErrNotAnArray
          ∧ ∃ v, navigateToValue h data (splitDot (Path rule)) = Ok v
                 ∧ ∀ array, v ≠ VSlice array) →
       applyRulesLoop h data (rule :: rest) result = Err e)
  ∧ (∀ (h : heap) (data : value) (rule : Rule) (result : loc) (e : error),
       recognized rule →
       applyRule h data rule result = Err e →
       navigateToValue h data (splitDot (Path rule)) = Err e
       ∨ (Type_ rule = KeepArrayElementsIfChildValueMatches
          ∧ e = ErrNotAnArray
          ∧ ∃ v, navigateToValue h data (splitDot (Path rule)) = Ok v
                 ∧ ∀ array, v ≠ VSlice array))
  ∧ (∀ (h : heap) (data : value) (rule : Rule) (rest : list Rule) (result : loc)
       (array : list value),
       Type_ rule = KeepArrayElementsIfChildValueMatches →
       navigateToValue h data (splitDot (Path rule)) = Ok (VSlice array) →
       Forall (λ element,
                 navigateToValue h element (splitDot (ChildPath rule)) ≠ Panic)
         array →
       ∃ h', applyRule h data rule result = Ok h'
             ∧ h' = match List.filter
                            (childMatches h (splitDot (ChildPath rule))
                               (Value rule)) array with
                    | [] => h
                    | kept => buildResultStructure h result
                                (splitDot (Path rule)) (VSlice kept)
                    end
             ∧ applyRulesLoop h data (rule :: rest) result
               = applyRulesLoop h' data rest result).
Proof.
  split; [|split; [|split; [|split]]].
  - intros h jsonData rules. unfold CutWithRules.
    destruct (Nat.eqb _ _); [discriminate|].
    destruct (json_Unmarshal h jsonData) as [[h1 data]|]; [|discriminate].
    pose proof (applyRules_not_PathNotFound h1 data rules) as Hne.
    destruct (applyRules h1 data rules) as [[h2 result]|e|];
      [|congruence|discriminate].
    destruct (json_Marshal h2 result); discriminate.
  - intros h data rule rest result Hrec Hnav.
    pose proof (applyRule_navigation_error h data rule result _ Hrec Hnav) as Hr.
    split; [exact Hr|].
    cbn [applyRulesLoop]. rewrite Hr. by destruct (decide _).
  - intros h data rule rest result e Hrec Hne Hsource.
    apply (applyRule_error_sources h data rule result e Hrec) in Hsource.
    cbn [applyRulesLoop]. rewrite Hsource. by destruct (decide _).
  - intros h data rule result e Hrec Herr.
    by apply (applyRule_error_sources h data rule result e Hrec).
  - intros h data rule rest result array Ht Hnav Hchildren.
    assert (applyRule h data rule result
            = Ok match List.filter
                         (childMatches h (splitDot (ChildPath rule))
                            (Value rule)) array with
                 | [] => h
                 | kept => buildResultStructure h result
                             (splitDot (Path rule)) (VSlice kept)
                 end) as Hrule.
    { unfold applyRule. rewrite Ht. cbn.
      unfold applyKeepArrayElementsIfChildValueMatchesRule; cbv zeta.
      rewrite Hnav, filterElements_filter, existsb_childPanics_false by done.
      rewrite app_nil_l. by destruct (List.filter _ array). }
    eexists. split; [exact Hrule|]. split; [reflexivity|].
    cbn [applyRulesLoop]. by rewrite Hrule.
Qed.

Lemma CutWithRules_swallows_PathNotFound_witness :
  applyRulesLoop Examples.shopAtRules Examples.shop
    [NewKeepPathRule "user.email"; NewKeepPathRule "user.name"] Examples.shopResult
  = applyRulesLoop Examples.shopAtRules Examples.shop
      [NewKeepPathRule "user.name"] Examples.shopResult
  ∧ applyRulesLoop Examples.shopAtRules Examples.shop
      [NewKeepPathRule "orders.first"; NewKeepPathRule "user.name"] Examples.shopResult
    = Err ErrInvalidPath
  ∧ applyRulesLoop Examples.shopAtRules Examples.shop
      [NewKeepArrayElementsIfChildValueMatchesRule "user" "name" (VString "John Doe");
       NewKeepPathRule "user.name"] Examples.shopResult
    = Err ErrNotAnArray
  ∧ applyRulesLoop (makeMap Examples.rowsHeap).1 Examples.rows
      [NewKeepArrayElementsIfChildValueMatchesRule "rows" "first" (VNum (num 1));
       NewKeepPathRule "rows"] 1%nat
    = applyRulesLoop (makeMap Examples.rowsHeap).1 Examples.rows
        [NewKeepPathRule "rows"] 1%nat.
Proof.
  pose proof (@CutWithRules_swallows_PathNotFound Examples.shopCodec)
    as (_ & Hskip & Habort & _ & Hchild).
  split; [|split; [|split]].
  - apply Hskip; [by left|evaluate].
  - apply Habort; [by left|discriminate|left; evaluate].
  - apply Habort; [right; by right|discriminate|].
    right. split; [reflexivity|]. split; [reflexivity|].
    exists (VMap 1%nat). split; [evaluate|discriminate].
  - destruct (Hchild (makeMap Examples.rowsHeap).1 Examples.rows
                (NewKeepArrayElementsIfChildValueMatchesRule "rows" "first"
                   (VNum (num 1)))
                [NewKeepPathRule "rows"] 1%nat
                [VSlice [VNum (num 1); VNum (num 2)]])
      as (h' & _ & -> & ->); [reflexivity|evaluate| |reflexivity].
    apply List.Forall_cons; [discriminate|apply List.Forall_nil].
Defined.

(** C5 fails when a child navigation panics.  In the keyed rows document
    the array [rows] holds an object with the empty key, from which the
    empty child path resolves to 1, and an array, from which the empty
    child path panics (C3): the array rule does not leave the second
    element out and keep the first, the call panics. *)
Theorem array_rule_panics_at_an_element :
  navigateToValue (makeMap Examples.keyedRowsHeap).1 Examples.keyedRows
    (splitDot "rows")
  = Ok (VSlice [VMap 1%nat; VSlice [VNum (num 1); VNum (num 2)]])
  ∧ navigateToValue (makeMap Examples.keyedRowsHeap).1 (VMap 1%nat)
      (splitDot EmptyString)
    = Ok (VNum (num 1))
  ∧ valueEquals (makeMap Examples.keyedRowsHeap).1 (VNum (num 1)) (VNum (num 1))
    = true
  ∧ navigateToValue (makeMap Examples.keyedRowsHeap).1
      (VSlice [VNum (num 1); VNum (num 2)]) (splitDot EmptyString)
    = Panic
  ∧ applyRules Examples.keyedRowsHeap Examples.keyedRows
      [NewKeepArrayElementsIfChildValueMatchesRule "rows" EmptyString
         (VNum (num 1))]
    = Panic.
Proof. split; [|split; [|split; [|split]]]; evaluate. Qed.

(** C6 fails when the parent path has an array index.  On the shop
    document the path [orders.0.id] resolves to 1 and its parent path
    [orders.0] to the first order; [applyRules] with the single rule
    [KeepParentIfValueMatches] on that path and the value 1 puts an empty
    array under [orders] and stops: neither the first order nor any field
    of it is in the result. *)
Theorem KeepParent_under_array_index_is_lost :
  navigateToValue Examples.shopHeap Examples.shop (splitDot "orders.0.id")
  = Ok (VNum (num 1))
  ∧ navigateToValue Examples.shopHeap Examples.shop (splitDot "orders.0")
    = Ok (VMap 3%nat)
  ∧ applyRules Examples.shopHeap Examples.shop
      [NewKeepParentIfValueMatchesRule "orders.0.id" (VNum (num 1))]
    = Ok (Examples.shopHeap ++ [ {[ "orders" := VSlice [] ]} ], VMap 5%nat)
  ∧ navigateToValue (Examples.shopHeap ++ [ {[ "orders" := VSlice [] ]} ])
      (VMap 5%nat) (splitDot "orders.0")
    = Err ErrPathNotFound.
Proof. split; [|split; [|split]]; evaluate. Qed.

(** C7 fails for an index outside the range of [int]: the digit scan
    accumulates the index without a check for overflow.  On an array of one
    element the segment 18446744073709551616 (2^64, far beyond the length)
    wraps around to 0 and addresses the first element instead of yielding
    [ErrPathNotFound]. *)
Lemma index_beyond_int_wraps_around :
  decimalSegment false [1;8;4;4;6;7;4;4;0;7;3;7;0;9;5;5;1;6;1;6]%nat
  = "18446744073709551616"
  ∧ digitsValue 0 [1;8;4;4;6;7;4;4;0;7;3;7;0;9;5;5;1;6;1;6]%nat = 2 ^ 64
  ∧ elementAt [VString "only"] (2 ^ 64) = None
  ∧ navigateToValue [] (VSlice [VString "only"]) ["18446744073709551616"]
    = Ok (VString "only").
Proof. split; [|split; [|split]]; evaluate. Qed.

(** C8.  [valueEquals] is structural.  Two values that stand for JSON
    documents are deep-equal exactly when the documents are equal; numbers
    compare by the number they denote, whatever text they were decoded
    from, strings by content, booleans by value, [nil] only equals [nil],
    slices by length and position-wise, maps by key set and key-wise. *)
Theorem valueEquals_structural (h : heap) :
  (∀ a b ta tb,
     document h a = Some ta → document h b = Some tb →
     valueEquals h a b = true ↔ ta = tb)
  ∧ (∀ x y : float64, valueEquals h (VNum x) (VNum y) = true ↔ x = y)
  ∧ (∀ x y : string, valueEquals h (VString x) (VString y) = true ↔ x = y)
  ∧ (∀ x y : bool, valueEquals h (VBool x) (VBool y) = true ↔ x = y)
  ∧ (∀ b : value, valueEquals h VNil b = true ↔ b = VNil)
  ∧ (∀ la lb : list value,
       valueEquals h (VSlice la) (VSlice lb) = true
       ↔ length la = length lb
         ∧ ∀ (i : nat) x y, la !! i = Some x → lb !! i = Some y →
                            valueEquals h x y = true)
  ∧ (∀ (ra rb : loc) (ma mb : gmap string value) (ta tb : json),
       h !! ra = Some ma → h !! rb = Some mb →
       document h (VMap ra) = Some ta → document h (VMap rb) = Some tb →
       valueEquals h (VMap ra) (VMap rb) = true
       ↔ dom ma = dom mb
         ∧ ∀ k va vb, ma !! k = Some va → mb !! k = Some vb →
                      valueEquals h va vb = true).
Proof.
  unfold valueEquals, document.
  split; [apply deepEqual_denote|].
  split; [intros x y; destruct (length h); cbn;
          rewrite bool_decide_eq_true; done|].
  split; [intros x y; destruct (length h); cbn; apply String.eqb_eq|].
  split; [intros x y; destruct (length h); destruct x, y; cbn; split; done|].
  split; [intros b; destruct (length h); destruct b; cbn; split; done|].
  split; [intros la lb; rewrite deepEqual_slice; apply all2_lookup|].
  intros ra rb ma mb ta tb Hma Hmb Hta Htb.
  rewrite (deepEqual_denote _ h _ _ ta tb Hta Htb).
  destruct (length h) as [|fuel]; [discriminate|].
  apply denote_map in Hta as (ma' & Hma' & Hdoca & ->).
  apply denote_map in Htb as (mb' & Hmb' & Hdocb & ->).
  assert (ma' = ma) as -> by congruence.
  assert (mb' = mb) as -> by congruence.
  assert (∀ a b ta tb, denote fuel h a = Some ta → denote fuel h b = Some tb →
                       deepEqual (S fuel) h a b = true ↔ ta = tb) as Heq.
  { intros a b ta tb Ha Hb.
    apply deepEqual_denote; by apply denote_more_fuel. }
  transitivity (omap (denote fuel h) ma = omap (denote fuel h) mb);
    [split; congruence|].
  rewrite <- (map_compare_documents (deepEqual (S fuel) h) (denote fuel h)
                Heq ma mb Hdoca Hdocb).
  rewrite andb_true_iff, Nat.eqb_eq, forallb_map_to_list. cbn [fst snd].
  split.
  - intros [Hsize Hall]. split.
    + apply set_subseteq_size_eq; [|rewrite !size_dom; lia].
      intros k [va Hva]%elem_of_dom. specialize (Hall k va Hva).
      apply elem_of_dom. destruct (mb !! k); [eauto|discriminate].
    + intros k va vb Hva Hvb. specialize (Hall k va Hva). by rewrite Hvb in Hall.
  - intros [Hdom Hall]. split.
    + by rewrite <- !(size_dom (D := gset string)), Hdom.
    + intros k va Hva.
      assert (k ∈ dom mb) as [vb Hvb]%elem_of_dom
        by (rewrite <- Hdom; apply elem_of_dom; eauto).
      rewrite Hvb. eauto.
Qed.

Lemma valueEquals_structural_witness :
  valueEquals Examples.shopAndExpectedHeap (VMap 2%nat) (VMap 5%nat) = true
  ∧ valueEquals Examples.shopAndExpectedHeap
      (VNum (num 30)) (VNum (Q2Qc (300 # 10))) = true.
Proof.
  destruct (valueEquals_structural Examples.shopAndExpectedHeap)
    as (Hdoc & Hnum & _).
  split.
  - apply (Hdoc (VMap 2%nat) (VMap 5%nat)
             (JObj {[ "theme" := JStr "dark"; "notifications" := JBool true ]})
             (JObj {[ "theme" := JStr "dark"; "notifications" := JBool true ]}));
      [evaluate..|reflexivity].
  - apply Hnum. apply Qc_is_canon. reflexivity.
Defined.

(** C9, as stated, fails: the child path [x] of an array rule, navigated
    from an element that is an array, yields [ErrInvalidPath], and the call
    goes on and returns the (empty) result. *)
Lemma InvalidPath_of_child_path_is_swallowed :
  navigateToValue (makeMap Examples.rowsHeap).1
    (VSlice [VNum (num 1); VNum (num 2)]) (splitDot "x") = Err ErrInvalidPath
  ∧ applyRules Examples.rowsHeap Examples.rows
      [NewKeepArrayElementsIfChildValueMatchesRule "rows" "x" (VNum (num 1))]
    = Ok (Examples.rowsHeap ++ [∅], VMap 1%nat).
Proof. split; evaluate. Qed.

(** C9, amended.  At an array, a segment with a character that is not a
    digit, other than a [-] at its first position, yields [ErrInvalidPath].
    When this happens on the own path of a rule of a recognized type, the
    loop returns [ErrInvalidPath] as soon as it reaches the rule.  When it
    happens on the child path of an array rule, the filter loop only leaves
    the element out. *)
Theorem navigateToValue_rejects_non_digit_segment (h : heap)
    (array : list value) (pre post : string) (c : ascii) (rest : list string) :
  isDigit c = false →
  pre ≠ EmptyString ∨ c ≠ "-"%char →
  navigateToValue h (VSlice array) ((pre +:+ String c post) :: rest)
  = Err ErrInvalidPath
  ∧ (∀ (data : value) (before : list string) (rule : Rule) (rules : list Rule)
       (result : loc),
       recognized rule →
       navigateToValue h data before = Ok (VSlice array) →
       splitDot (Path rule) = before ++ (pre +:+ String c post) :: rest →
       applyRulesLoop h data (rule :: rules) result = Err ErrInvalidPath)
  ∧ (∀ (childPathSegments : list string) (expectedValue element : value)
       (elements filteredArray : list value),
       navigateToValue h element childPathSegments = Err ErrInvalidPath →
       filterElements h childPathSegments expectedValue (element :: elements)
         filteredArray
       = filterElements h childPathSegments expectedValue elements filteredArray).
Proof.
  intros Hc Hpos.
  assert (navigateToValue h (VSlice array) ((pre +:+ String c post) :: rest)
          = Err ErrInvalidPath) as Hbad.
  { cbn [navigateToValue].
    rewrite (scanIndex_rejects c post Hc pre 0%nat 0) by (by right).
    reflexivity. }
  split; [exact Hbad|split].
  - intros data before rule rules result Hrec Hnav Hpath.
    cbn [applyRulesLoop].
    rewrite (applyRule_navigation_error h data rule result ErrInvalidPath Hrec).
    + by destruct (decide _).
    + by rewrite Hpath, navigateToValue_app, Hnav.
  - intros childPathSegments expectedValue element elements filteredArray Hnav.
    cbn [filterElements]. by rewrite Hnav.
Qed.

Lemma navigateToValue_rejects_non_digit_segment_witness :
  navigateToValue Examples.shopAtRules (VSlice [VMap 3%nat; VMap 4%nat])
    ["first"; "id"] = Err ErrInvalidPath
  ∧ applyRulesLoop Examples.shopAtRules Examples.shop
      [NewKeepParentIfValueMatchesRule "orders.first.id" (VNum (num 1));
       NewKeepPathRule "user.name"] Examples.shopResult
    = Err ErrInvalidPath.
Proof.
  destruct (navigateToValue_rejects_non_digit_segment Examples.shopAtRules
              [VMap 3%nat; VMap 4%nat] EmptyString "irst" "f"%char ["id"])
    as (Hnav & Habort & _); [reflexivity|by right|].
  split; [exact Hnav|].
  apply (Habort Examples.shop ["orders"]);
    [right; by left|evaluate..].
Defined.

(** C10.  A [KeepParentIfValueMatches] rule whose path resolves to a value
    that does not deep-equal the expected value writes nothing: the call
    with that single rule returns what the call without rules returns, and
    the result map is the fresh empty map. *)
Theorem CutWithRules_KeepParent_nonmatch_is_noop `{JSONCodec} (h h1 : heap)
    (jsonData path : string) (expectedValue data v : value) :
  json_Unmarshal h jsonData = Some (h1, data) →
  navigateToValue h1 data (splitDot path) = Ok v →
  valueEquals (makeMap h1).1 v expectedValue = false →
  CutWithRules h jsonData [NewKeepParentIfValueMatchesRule path expectedValue]
  = CutWithRules h jsonData []
  ∧ applyRules h1 data [NewKeepParentIfValueMatchesRule path expectedValue]
    = Ok ((makeMap h1).1, VMap (makeMap h1).2).
Proof.
  intros Hdec Hnav Hneq.
  assert (applyRules h1 data [NewKeepParentIfValueMatchesRule path expectedValue]
          = Ok ((makeMap h1).1, VMap (makeMap h1).2)) as Hrun.
  { unfold applyRules. destruct (makeMap h1) as [h0 result] eqn:Hmk.
    cbn [fst snd] in *. cbn [applyRulesLoop].
    unfold applyRule, NewKeepParentIfValueMatchesRule; cbn.
    unfold applyKeepParentIfValueMatchesRule; cbv zeta.
    assert (h0 = (makeMap h1).1) as Hh0 by (by rewrite Hmk).
    rewrite Hh0 at 1. rewrite navigateToValue_makeMap, Hnav, Hneq.
    reflexivity. }
  split; [|exact Hrun].
  unfold CutWithRules. rewrite Hdec, Hrun. reflexivity.
Qed.

Lemma CutWithRules_KeepParent_nonmatch_is_noop_witness :
  @CutWithRules Examples.shopCodec [] Examples.shopText
    [NewKeepParentIfValueMatchesRule "user.age" (VNum (num 31))]
  = Ok "{}".
Proof.
  destruct (@CutWithRules_KeepParent_nonmatch_is_noop Examples.shopCodec
              [] Examples.shopHeap Examples.shopText "user.age"
              (VNum (num 31)) Examples.shop (VNum (num 30))) as [-> _];
    evaluate.
Defined.

(** * Further properties *)

(** ** Navigation *)

(** X1.  Navigation composes: a path [p ++ q] resolves to [v] exactly when
    [p] resolves to some value from which [q] resolves to [v].  So every
    prefix of a path that resolves resolves too. *)
Theorem navigateToValue_prefix (h : heap) (data v : value) (p q : list string) :
  navigateToValue h data (p ++ q) = Ok v
  ↔ ∃ u, navigateToValue h data p = Ok u ∧ navigateToValue h u q = Ok v.
Proof.
  rewrite navigateToValue_app. split.
  - destruct (navigateToValue h data p) as [u|e|]; [eauto|done..].
  - intros (u & -> & Hq). exact Hq.
Qed.

Lemma navigateToValue_prefix_witness :
  ∃ u, navigateToValue Examples.shopHeap Examples.shop ["user"; "preferences"] = Ok u
       ∧ navigateToValue Examples.shopHeap u ["theme"] = Ok (VString "dark").
Proof.
  apply (navigateToValue_prefix Examples.shopHeap Examples.shop (VString "dark")
           ["user"; "preferences"] ["theme"]).
  evaluate.
Defined.

(** Navigation along a path without an empty segment does not panic. *)
Lemma navigateToValue_no_panic (h : heap) (pathSegments : list string) :
  noEmptySegment pathSegments →
  ∀ data, navigateToValue h data pathSegments ≠ Panic.
Proof.
  induction 1 as [|segment rest Hseg Hrest IH]; intros data; [done|].
  cbn [navigateToValue].
  destruct data as [| | | |l|r]; try done.
  - destruct (scanIndex 0 0 segment) as [index|]; [|done].
    destruct segment as [|c0 tail]; [done|]. cbv zeta.
    set (i1 := if Ascii.eqb c0 "-" then wrapInt (- index) else index).
    set (i2 := if i1 <? 0 then Z.of_nat (length l) + i1 else i1).
    destruct ((i2 <? 0) || (i2 >=? Z.of_nat (length l))) eqn:Hout; [done|].
    apply orb_false_iff in Hout as [Hlo Hhi].
    apply Z.ltb_ge in Hlo. rewrite Z.geb_leb in Hhi. apply Z.leb_gt in Hhi.
    destruct (lookup_lt_is_Some_2 l (Z.to_nat i2)) as [element ->]; [lia|].
    apply IH.
  - destruct (mapIndex h r segment); [apply IH|done].
Qed.

(** X2.  The panic of an empty segment is the only one: navigation along a
    path without an empty segment returns a value or one of the two
    navigation errors. *)
Theorem navigateToValue_without_empty_segment (h : heap) (data : value)
    (pathSegments : list string) :
  noEmptySegment pathSegments →
  (∃ v, navigateToValue h data pathSegments = Ok v)
  ∨ navigateToValue h data pathSegments = Err ErrPathNotFound
  ∨ navigateToValue h data pathSegments = Err ErrInvalidPath.
Proof.
  intros Hne. pose proof (navigateToValue_no_panic h pathSegments Hne data) as Hnp.
  clear Hne. revert data Hnp.
  induction pathSegments as [|segment rest IH]; intros data Hnp; [left; eauto|].
  cbn [navigateToValue] in Hnp |- *.
  destruct data as [| | | |l|r]; auto.
  - destruct (scanIndex 0 0 segment) as [index|]; [|auto].
    destruct segment as [|c0 tail]; [done|]. cbv zeta in Hnp |- *.
    destruct (_ || _); [auto|].
    destruct (l !! _); [by apply IH|done].
  - destruct (mapIndex h r segment); [by apply IH|auto].
Qed.

Lemma navigateToValue_without_empty_segment_witness :
  (∃ v, navigateToValue Examples.shopHeap Examples.shop ["orders"; "-1"; "id"] = Ok v)
  ∨ navigateToValue Examples.shopHeap Examples.shop ["orders"; "-1"; "id"]
    = Err ErrPathNotFound
  ∨ navigateToValue Examples.shopHeap Examples.shop ["orders"; "-1"; "id"]
    = Err ErrInvalidPath.
Proof.
  apply navigateToValue_without_empty_segment.
  repeat (apply List.Forall_cons; [discriminate|]). apply List.Forall_nil.
Defined.

Lemma applyRule_no_panic (h : heap) (data : value) (rule : Rule) (result : loc) :
  pathsWithoutEmptySegment rule → applyRule h data rule result ≠ Panic.
Proof.
  intros [Hpath Hchild]. unfold applyRule.
  destruct (Z.eqb_spec (Type_ rule) KeepPath) as [_|_].
  { unfold applyKeepPathRule; cbv zeta.
    pose proof (navigateToValue_no_panic h _ Hpath data).
    by destruct (navigateToValue h data (splitDot (Path rule))). }
  destruct (Z.eqb_spec (Type_ rule) KeepParentIfValueMatches) as [_|_].
  { unfold applyKeepParentIfValueMatchesRule; cbv zeta.
    pose proof (navigateToValue_no_panic h _ Hpath data).
    destruct (navigateToValue h data (splitDot (Path rule))); [|done..].
    destruct (negb _); [done|]. destruct (_ <? _)%nat; [|done].
    assert (noEmptySegment (take (length (splitDot (Path rule)) - 1)
                              (splitDot (Path rule)))) as Hparent
      by (by apply Forall_take).
    pose proof (navigateToValue_no_panic h _ Hparent data).
    by destruct (navigateToValue h data (take _ _)). }
  destruct (Z.eqb_spec (Type_ rule) KeepArrayElementsIfChildValueMatches)
    as [Htype|_]; [|done].
  unfold applyKeepArrayElementsIfChildValueMatchesRule; cbv zeta.
  pose proof (navigateToValue_no_panic h _ Hpath data).
  destruct (navigateToValue h data (splitDot (Path rule))) as [v|e|]; [|done..].
  destruct v as [| | | |array|]; try done.
  rewrite filterElements_filter.
  assert (existsb (childPanics h (splitDot (ChildPath rule))) array = false) as ->.
  { apply not_true_is_false. intros (element & _ & Hp)%existsb_exists.
    unfold childPanics in Hp.
    pose proof (navigateToValue_no_panic h _ (Hchild Htype) element).
    by destruct (navigateToValue h element (splitDot (ChildPath rule))). }
  by destruct (_ <? _)%nat.
Qed.

(** X3.  [CutWithRules] does not panic when no rule has an empty segment in
    its path or, for the array rule, in its child path: a path that is
    empty, begins or ends with a dot or has two dots in a row is the only
    way to the panic. *)
Theorem CutWithRules_no_panic `{JSONCodec} (h : heap) (jsonData : string)
    (rules : list Rule) :
  Forall pathsWithoutEmptySegment rules →
  CutWithRules h jsonData rules ≠ Panic
  ∧ ∀ data, applyRules h data rules ≠ Panic.
Proof.
  intros Hrules.
  assert (∀ data result h0, applyRulesLoop h0 data rules result ≠ Panic) as Hloop.
  { intros data result.
    induction Hrules as [|rule rules Hrule Hrules IH]; intros h0; [done|].
    cbn [applyRulesLoop].
    pose proof (applyRule_no_panic h0 data rule result Hrule).
    destruct (applyRule h0 data rule result) as [h1|e|]; [apply IH| |done].
    destruct (decide _); [apply IH|done]. }
  assert (∀ h1 data, applyRules h1 data rules ≠ Panic) as Happly.
  { intros h1 data. unfold applyRules. destruct (makeMap h1) as [h0 result].
    pose proof (Hloop data result h0).
    by destruct (applyRulesLoop h0 data rules result). }
  split; [|apply Happly].
  unfold CutWithRules. destruct (Nat.eqb _ _); [done|].
  destruct (json_Unmarshal h jsonData) as [[h1 data]|]; [|done].
  pose proof (Happly h1 data).
  destruct (applyRules h1 data rules) as [[h2 result]|e|]; [|done..].
  by destruct (json_Marshal h2 result).
Qed.

Lemma CutWithRules_no_panic_witness :
  @CutWithRules Examples.shopCodec [] Examples.shopText
    [NewKeepPathRule "orders.0";
     NewKeepArrayElementsIfChildValueMatchesRule "orders" "id" (VNum (num 1))]
  ≠ Panic.
Proof.
  apply (@CutWithRules_no_panic Examples.shopCodec).
  apply List.Forall_cons; [|apply List.Forall_cons; [|apply List.Forall_nil]].
  - split; [|discriminate].
    repeat (apply List.Forall_cons; [discriminate|]). apply List.Forall_nil.
  - split; [|intros _];
      repeat (apply List.Forall_cons; [discriminate|]); apply List.Forall_nil.
Defined.

(** ** Index segments *)

Lemma isDigit_digitChar (c : ascii) :
  isDigit c = true → ∃ d, (d < 10)%nat ∧ c = digitChar d.
Proof.
  unfold isDigit, digitChar. cbv zeta. intros Hc.
  apply andb_true_iff in Hc as [Hlo Hhi].
  apply Z.leb_le in Hlo, Hhi.
  exists (nat_of_ascii c - 48)%nat. split; [lia|].
  replace (48 + (nat_of_ascii c - 48))%nat with (nat_of_ascii c) by lia.
  by rewrite ascii_nat_embedding.
Qed.

Lemma allDigits_digitsText (s : string) :
  allDigits s = true
  ↔ ∃ ds, Forall (λ d, (d < 10)%nat) ds ∧ s = digitsText ds.
Proof.
  split.
  - induction s as [|c s IH]; cbn [allDigits].
    + intros _. by exists [].
    + intros [Hc Hs]%andb_true_iff.
      destruct (isDigit_digitChar c Hc) as (d & Hd & ->).
      destruct (IH Hs) as (ds & Hds & ->).
      exists (d :: ds). split; [by constructor|reflexivity].
  - intros (ds & Hds & ->).
    induction Hds as [|d ds Hd Hds IH]; [reflexivity|].
    cbn [digitsText allDigits].
    destruct (digitChar_spec d Hd) as (-> & _ & _). exact IH.
Qed.

(** After its first character the digit scan accepts exactly the texts of
    digits. *)
Lemma scanIndex_accepts_digits (s : string) :
  ∀ (i : nat) (index : Z),
    i ≠ O → is_Some (scanIndex i index s) ↔ allDigits s = true.
Proof.
  induction s as [|c s IH]; intros i index Hi; cbn [scanIndex allDigits].
  - split; [done|by eexists].
  - apply Nat.eqb_neq in Hi as ->. cbn [andb].
    destruct (isDigit c); cbn [negb andb]; [by apply IH|].
    split; [by intros [? ?]|done].
Qed.

(** X4.  [isNumeric] accepts exactly the decimal segments: an optional [-]
    followed by at least one digit. *)
Theorem isNumeric_decimalSegment (s : string) :
  isNumeric s = true
  ↔ ∃ negative ds,
      ds ≠ [] ∧ Forall (λ d, (d < 10)%nat) ds ∧ s = decimalSegment negative ds.
Proof.
  split.
  - destruct s as [|c s]; [done|]. cbn [isNumeric].
    destruct (Ascii.eqb_spec c "-") as [->|Hc].
    + destruct s as [|c' s']; [done|].
      intros (ds & Hds & Hs)%allDigits_digitsText.
      exists true, ds. split; [by destruct ds|]. split; [done|].
      cbn [decimalSegment]. by rewrite Hs.
    + intros (ds & Hds & Hs)%allDigits_digitsText.
      exists false, ds. split; [by destruct ds|]. by split.
  - intros (negative & ds & Hne & Hds & ->).
    destruct ds as [|d ds]; [done|].
    apply Forall_cons in Hds as Hds'. destruct Hds' as [Hd Hrest].
    destruct (digitChar_spec d Hd) as (Hdig & _ & Hdash).
    assert (allDigits (digitsText (d :: ds)) = true) as Hall
      by (apply allDigits_digitsText; eauto).
    destruct negative; cbn [decimalSegment isNumeric digitsText] in *.
    + change (Ascii.eqb "-" "-") with true. cbv iota. exact Hall.
    + rewrite Hdash. exact Hall.
Qed.

Lemma isNumeric_decimalSegment_witness :
  isNumeric "-12" = true.
Proof.
  apply isNumeric_decimalSegment. exists true, [1%nat; 2%nat].
  split; [done|split; [|reflexivity]].
  repeat (apply List.Forall_cons; [lia|]). apply List.Forall_nil.
Defined.

(** What the digit scan accepts: the numeric segments, the empty segment
    and the segment that is only a [-]. *)
Lemma scanIndex_accepts (segment : string) :
  scanIndex 0 0 segment = None
  ↔ isNumeric segment = false ∧ segment ≠ EmptyString ∧ segment ≠ "-".
Proof.
  destruct segment as [|c s]; [split; [done|by intros (_ & ? & _)]|].
  cbn [scanIndex isNumeric Nat.eqb andb].
  destruct (Ascii.eqb_spec c "-") as [->|Hc].
  - pose proof (scanIndex_accepts_digits s 1%nat 0 ltac:(done)) as Hacc.
    destruct s as [|c' s'].
    + split; [done|by intros (_ & _ & ?)].
    + destruct (scanIndex 1 0 (String c' s')) as [index|] eqn:Hscan.
      * split; [done|]. intros (Hnum & _ & _).
        rewrite (proj1 Hacc (mk_is_Some _ _ eq_refl)) in Hnum. done.
      * split; [|done]. intros _. split; [|done].
        apply not_true_is_false. intros Hall.
        apply Hacc in Hall as [? ?]. done.
  - cbn [allDigits]. destruct (isDigit c) eqn:Hdig; cbn [negb andb].
    + pose proof (scanIndex_accepts_digits s 1%nat
                    (wrapInt (0 * 10 + digitVal c)) ltac:(done)) as Hacc.
      destruct (scanIndex 1 _ s) as [index|] eqn:Hscan.
      * split; [done|]. intros (Hnum & _ & _).
        rewrite (proj1 Hacc (mk_is_Some _ _ eq_refl)) in Hnum. done.
      * split; [|done]. intros _. split; [|split; [done|congruence]].
        apply not_true_is_false. intros Hall.
        apply Hacc in Hall as [? ?]. done.
    + split; [|done]. intros _. split; [done|split; [done|congruence]].
Qed.

(** X5.  From an array, a one-segment path yields [ErrInvalidPath] exactly
    when the segment is neither numeric, nor empty, nor the lone [-]; and
    the lone [-] is read as index 0. *)
Theorem navigateToValue_index_syntax (h : heap) (array : list value)
    (segment : string) (rest : list string) :
  (navigateToValue h (VSlice array) [segment] = Err ErrInvalidPath
   ↔ isNumeric segment = false ∧ segment ≠ EmptyString ∧ segment ≠ "-")
  ∧ navigateToValue h (VSlice array) ("-" :: rest)
    = navigateToValue h (VSlice array) ("0" :: rest).
Proof.
  split; [|reflexivity].
  rewrite <- scanIndex_accepts. cbn [navigateToValue].
  destruct (scanIndex 0 0 segment) as [index|]; [|done].
  split; [|done].
  destruct segment as [|c0 tail]; [done|]. cbv zeta.
  destruct (_ || _); [done|]. by destruct (array !! _).
Qed.

(** ** Paths and segments *)

Lemma splitDot_cons_dotFree (c : ascii) (segment : string) (segments : list string) :
  Ascii.eqb c "." = false →
  dotFree segment = true →
  splitDot (String.concat "." (String c segment :: segments))
  = match splitDot (String.concat "." (segment :: segments)) with
    | seg :: segs => String c seg :: segs
    | [] => [String c EmptyString]
    end.
Proof.
  intros Hc _.
  destruct segments as [|next segments].
  - cbn [String.concat]. cbn [splitDot]. by rewrite Hc.
  - change (String.concat "." (String c segment :: next :: segments))
      with (String c (String.concat "." (segment :: next :: segments))).
    cbn [splitDot]. by rewrite Hc.
Qed.

(** Joined with dots, the segments of a path give the path back. *)
Lemma concat_splitDot (path : string) :
  String.concat "." (splitDot path) = path.
Proof.
  induction path as [|c rest IH]; [reflexivity|].
  cbn [splitDot]. pose proof (splitDot_nonempty rest) as Hne.
  destruct (Ascii.eqb_spec c ".") as [->|Hc].
  - destruct (splitDot rest) as [|seg segs]; [done|].
    change (String.concat "." (EmptyString :: seg :: segs))
      with (String "." (String.concat "." (seg :: segs))).
    by rewrite IH.
  - destruct (splitDot rest) as [|seg segs]; [done|].
    destruct segs as [|seg' segs'].
    + cbn [String.concat] in IH |- *. by rewrite IH.
    + change (String.concat "." (String c seg :: seg' :: segs'))
        with (String c (String.concat "." (seg :: seg' :: segs'))).
      by rewrite IH.
Qed.

(** The segments of a path have no dot. *)
Lemma splitDot_dotFree (path : string) :
  Forall (λ segment, dotFree segment = true) (splitDot path).
Proof.
  induction path as [|c rest IH]; [by repeat constructor|].
  cbn [splitDot]. pose proof (splitDot_nonempty rest) as Hne.
  destruct (Ascii.eqb c ".") eqn:Hc.
  - by constructor.
  - destruct (splitDot rest) as [|seg segs]; [done|].
    apply Forall_cons in IH as [Hseg Hsegs].
    constructor; [|done]. cbn. by rewrite Hc, Hseg.
Qed.

(** A non-empty list of segments without dots is what its join splits
    into. *)
Lemma splitDot_of_concat (segments : list string) :
  segments ≠ [] →
  Forall (λ segment, dotFree segment = true) segments →
  splitDot (String.concat "." segments) = segments.
Proof.
  intros Hne Hfree.
  induction Hfree as [|segment segments Hseg Hsegs IH]; [done|]. clear Hne.
  induction segment as [|c segment IHseg].
  - destruct segments as [|next segments]; [reflexivity|].
    change (String.concat "." (EmptyString :: next :: segments))
      with (String "." (String.concat "." (next :: segments))).
    cbn [splitDot]. change (Ascii.eqb "." ".") with true. cbv iota.
    by rewrite IH.
  - cbn [dotFree] in Hseg. apply andb_true_iff in Hseg as [Hc Hseg].
    apply negb_true_iff in Hc.
    rewrite (splitDot_cons_dotFree c segment segments Hc Hseg).
    by rewrite (IHseg Hseg).
Qed.

(** X6.  Splitting a path at the dots and joining the segments with dots
    are inverse to each other: the segments of a path have no dot and
    joined give the path back, and a non-empty list of segments without
    dots is what its join splits into. *)
Theorem splitDot_concat (path : string) :
  String.concat "." (splitDot path) = path
  ∧ Forall (λ segment, dotFree segment = true) (splitDot path)
  ∧ ∀ segments,
      segments ≠ [] →
      Forall (λ segment, dotFree segment = true) segments →
      splitDot (String.concat "." segments) = segments.
Proof.
  split; [apply concat_splitDot|split; [apply splitDot_dotFree|]].
  apply splitDot_of_concat.
Qed.

Lemma splitDot_concat_witness :
  splitDot (String.concat "." ["user"; "preferences"; "theme"])
  = ["user"; "preferences"; "theme"].
Proof.
  apply (splitDot_concat EmptyString); [done|].
  repeat (apply List.Forall_cons; [reflexivity|]). apply List.Forall_nil.
Defined.

(** ** Assembly *)

Lemma KeepPath_round_trip_witness :
  ∃ h', applyRules Examples.shopHeap Examples.shop
          [NewKeepPathRule "user.preferences.theme"]
        = Ok (h', VMap 5%nat)
        ∧ navigateToValue h' (VMap 5%nat) (splitDot "user.preferences.theme")
          = Ok (VString "dark")
        ∧ valueEquals h' (VString "dark") (VString "dark") = true
        ∧ ∀ r, (r < 5)%nat → h' !! r = Examples.shopHeap !! r.
Proof.
  apply (KeepPath_round_trip Examples.shopHeap Examples.shop (VString "dark")
           "user.preferences.theme"); [evaluate|].
  repeat (apply List.Forall_cons; [reflexivity|]). apply List.Forall_nil.
Defined.

(** Navigation that succeeds reads only maps that are allocated, and only
    under the segments of its path. *)
Lemma navigateToValue_frame (h h' : heap) (pathSegments : list string) :
  (∀ r key, (r < length h)%nat → In key pathSegments →
            mapIndex h' r key = mapIndex h r key) →
  ∀ data v,
    navigateToValue h data pathSegments = Ok v →
    navigateToValue h' data pathSegments = Ok v.
Proof.
  induction pathSegments as [|segment rest IH]; intros Hsame data v; [done|].
  cbn [navigateToValue].
  assert (∀ r key, (r < length h)%nat → In key rest →
                   mapIndex h' r key = mapIndex h r key) as Hrest
    by (intros r key Hr Hkey; apply Hsame; [done|by right]).
  destruct data as [| | | |l|r]; try done.
  - destruct (scanIndex 0 0 segment); [|done].
    destruct segment; [done|]. cbv zeta.
    destruct (_ || _); [done|]. destruct (l !! _); [by apply IH|done].
  - destruct (mapIndex h r segment) as [val|] eqn:Hval; [|done].
    assert (r < length h)%nat as Hr.
    { destruct (decide (r < length h)%nat) as [|Hge]; [done|].
      unfold mapIndex, mapAt in Hval.
      rewrite lookup_ge_None_2 in Hval by lia. done. }
    rewrite (Hsame r segment Hr (or_introl eq_refl)), Hval. by apply IH.
Qed.

(** Assembly along a path none of whose segments after the first is
    numeric, into a map that lacks the first segment: the value ends up at
    the path, the map gains only the first segment, and no other map that
    was there is written. *)
Lemma buildResultStructure_absent (v : value) (pathSegments : list string)
    (h : heap) (current : loc) (m : gmap string value) :
  pathSegments ≠ [] →
  Forall (λ s, isNumeric s = false) (tail pathSegments) →
  h !! current = Some m →
  m !! hd EmptyString pathSegments = None →
  navigateToValue (buildResultStructure h current pathSegments v)
    (VMap current) pathSegments = Ok v
  ∧ (length h ≤ length (buildResultStructure h current pathSegments v))%nat
  ∧ (∃ x, buildResultStructure h current pathSegments v !! current
          = Some (<[hd EmptyString pathSegments := x]> m))
  ∧ ∀ r, (r < length h)%nat → r ≠ current →
         buildResultStructure h current pathSegments v !! r = h !! r.
Proof.
  intros Hne Hnum Hcur Habsent.
  pose proof (lookup_lt_Some _ _ _ Hcur) as Hlt.
  destruct pathSegments as [|segment [|nextSegment rest]]; [done| |];
    cbn [hd] in Habsent |- *.
  - cbn [buildResultStructure navigateToValue]. unfold mapIndex.
    rewrite (mapAt_Some _ _ _ (lookup_mapAssign_eq h current segment v Hlt)).
    rewrite lookup_insert_eq, length_mapAssign, lookup_mapAssign_eq by done.
    rewrite (mapAt_Some _ _ _ Hcur).
    split; [done|split; [lia|split; [eauto|]]].
    intros r _ Hr. by apply lookup_mapAssign_ne.
  - cbn [tail] in Hnum. apply Forall_cons in Hnum as [Hnext Hrest].
    rewrite buildResultStructure_new_map;
      [|done|unfold mapIndex; by rewrite (mapAt_Some _ _ _ Hcur)|done].
    set (fresh := length h).
    set (h2 := mapAssign (h ++ [∅]) current segment (VMap fresh)).
    assert (length h2 = S (length h)) as Hlen2.
    { unfold h2. rewrite length_mapAssign, length_app. cbn. lia. }
    assert (h2 !! current = Some (<[segment := VMap fresh]> m)) as Hcur2.
    { unfold h2. rewrite lookup_mapAssign_eq by (rewrite length_app; cbn; lia).
      rewrite (mapAt_Some _ _ m); [done|]. by rewrite lookup_app_l. }
    assert (h2 !! fresh = Some ∅) as Hfresh2.
    { unfold h2. rewrite lookup_mapAssign_ne by (unfold fresh; lia).
      unfold fresh. by rewrite lookup_app_r, Nat.sub_diag by lia. }
    destruct (buildResultStructure_fresh v (nextSegment :: rest) h2 fresh
                ltac:(done) Hrest Hfresh2) as (Hnav & Hlen & Hframe).
    assert (buildResultStructure h2 fresh (nextSegment :: rest) v !! current
            = Some (<[segment := VMap fresh]> m)) as Hcur3
      by (rewrite Hframe by (unfold fresh in *; lia); exact Hcur2).
    split; [|split; [lia|split; [eauto|]]].
    + change (navigateToValue ?h' (VMap current) (segment :: ?p))
        with (match mapIndex h' current segment with
              | None => Err ErrPathNotFound
              | Some val => navigateToValue h' val p
              end).
      unfold mapIndex. rewrite (mapAt_Some _ _ _ Hcur3), lookup_insert_eq.
      exact Hnav.
    + intros r Hr Hrc. rewrite Hframe by (unfold fresh in *; lia).
      unfold h2. rewrite lookup_mapAssign_ne by done.
      by rewrite lookup_app_l.
Qed.

(** Lookups agree wherever the maps agree. *)
Lemma mapIndex_lookup (h h' : heap) (r : loc) (key : string) :
  h' !! r = h !! r → mapIndex h' r key = mapIndex h r key.
Proof. unfold mapIndex, mapAt. by intros ->. Qed.

(** X8.  Two [KeepPath] rules under different top-level keys are both
    kept: when both paths resolve, neither has a numeric segment after its
    first, and the first segment of the second path is no segment of the
    first path, the result holds each value at its path, and the maps of
    the document are as they were. *)
Theorem KeepPath_twice_merges (h : heap) (data vp vq : value) (p q : string) :
  navigateToValue h data (splitDot p) = Ok vp →
  navigateToValue h data (splitDot q) = Ok vq →
  Forall (λ s, isNumeric s = false) (tail (splitDot p)) →
  Forall (λ s, isNumeric s = false) (tail (splitDot q)) →
  ¬ In (hd EmptyString (splitDot q)) (splitDot p) →
  ∃ h', applyRules h data [NewKeepPathRule p; NewKeepPathRule q]
        = Ok (h', VMap (length h))
        ∧ navigateToValue h' (VMap (length h)) (splitDot p) = Ok vp
        ∧ navigateToValue h' (VMap (length h)) (splitDot q) = Ok vq
        ∧ ∀ r, (r < length h)%nat → h' !! r = h !! r.
Proof.
  intros Hp Hq Hobjp Hobjq Hdisjoint.
  pose proof (splitDot_nonempty p) as Hnep.
  pose proof (splitDot_nonempty q) as Hneq.
  set (result := length h). set (h0 := h ++ [∅]).
  assert (h0 !! result = Some (∅ : gmap string value)) as Hres0
    by (unfold h0, result; by rewrite lookup_app_r, Nat.sub_diag by lia).
  assert (length h0 = S (length h)) as Hlen0
    by (unfold h0; rewrite length_app; cbn; lia).
  assert (∀ r, (r < length h)%nat → h0 !! r = h !! r) as Hframe0
    by (intros r Hr; unfold h0; by rewrite lookup_app_l).
  (* the first rule *)
  set (h1 := buildResultStructure h0 result (splitDot p) vp).
  destruct (buildResultStructure_absent vp (splitDot p) h0 result ∅
              Hnep Hobjp Hres0 (lookup_empty _))
    as (Hnavp1 & Hlen1 & (x & Hres1) & Hframe1).
  fold h1 in Hnavp1, Hlen1, Hres1, Hframe1.
  assert (∀ r, (r < length h)%nat → h1 !! r = h !! r) as Hdoc1.
  { intros r Hr. rewrite Hframe1 by (unfold result; lia). by apply Hframe0. }
  (* the second rule *)
  assert (navigateToValue h1 data (splitDot q) = Ok vq) as Hq1.
  { apply (navigateToValue_frame h h1); [|done].
    intros r key Hr _. by apply mapIndex_lookup, Hdoc1. }
  assert (hd EmptyString (splitDot q) ≠ hd EmptyString (splitDot p)) as Hheads.
  { intros Heq. apply Hdisjoint. rewrite Heq.
    destruct (splitDot p); [done|by left]. }
  set (h2 := buildResultStructure h1 result (splitDot q) vq).
  destruct (buildResultStructure_absent vq (splitDot q) h1 result _
              Hneq Hobjq Hres1 ltac:(by rewrite lookup_insert_ne))
    as (Hnavq2 & Hlen2 & (y & Hres2) & Hframe2).
  fold h2 in Hnavq2, Hlen2, Hres2, Hframe2.
  exists h2. split; [|split; [|split; [exact Hnavq2|]]].
  - unfold applyRules, makeMap. fold h0 result. cbn [applyRulesLoop].
    unfold applyRule, NewKeepPathRule; cbn.
    unfold applyKeepPathRule; cbv zeta.
    pose proof (navigateToValue_makeMap h (splitDot p) data) as Hmk.
    unfold makeMap in Hmk; cbn [fst] in Hmk. fold h0 in Hmk.
    rewrite Hmk, Hp. fold h1. by rewrite Hq1.
  - apply (navigateToValue_frame h1 h2); [|exact Hnavp1].
    intros r key Hr Hkey.
    destruct (decide (r = result)) as [->|Hne].
    + unfold mapIndex. rewrite (mapAt_Some _ _ _ Hres2), (mapAt_Some _ _ _ Hres1).
      apply lookup_insert_ne. intros <-. by apply Hdisjoint.
    + by apply mapIndex_lookup, Hframe2.
  - intros r Hr. rewrite Hframe2 by (unfold result; lia). by apply Hdoc1.
Qed.

Lemma KeepPath_twice_merges_witness :
  ∃ h', applyRules Examples.shopHeap Examples.shop
          [NewKeepPathRule "user.name"; NewKeepPathRule "orders"]
        = Ok (h', VMap 5%nat)
        ∧ navigateToValue h' (VMap 5%nat) (splitDot "user.name")
          = Ok (VString "John Doe")
        ∧ navigateToValue h' (VMap 5%nat) (splitDot "orders")
          = Ok (VSlice [VMap 3%nat; VMap 4%nat])
        ∧ ∀ r, (r < 5)%nat → h' !! r = Examples.shopHeap !! r.
Proof.
  apply (KeepPath_twice_merges Examples.shopHeap Examples.shop
           (VString "John Doe") (VSlice [VMap 3%nat; VMap 4%nat])
           "user.name" "orders"); [evaluate..| | |].
  - repeat (apply List.Forall_cons; [reflexivity|]). apply List.Forall_nil.
  - apply List.Forall_nil.
  - intros [H|[H|[]]]; discriminate.
Defined.

(** Assembly walks the maps that are there. *)
Lemma buildResultStructure_along (h : heap) (rest : list string) (v : value) :
  rest ≠ [] →
  ∀ (pre : list string) (current target : loc),
    mapChain h current pre = Some target →
    buildResultStructure h current (pre ++ rest) v
    = buildResultStructure h target rest v.
Proof.
  intros Hrest pre.
  induction pre as [|segment pre IH]; intros current target Hchain.
  - by injection Hchain as ->.
  - cbn [mapChain] in Hchain.
    destruct (mapIndex h current segment) as [[| | | | |nextMap]|] eqn:Hseg;
      try done.
    assert (∃ nextSegment rest', pre ++ rest = nextSegment :: rest')
      as (nextSegment & rest' & Hpath) by (destruct pre, rest; by eauto).
    cbn [app]. rewrite Hpath, buildResultStructure_step, Hseg. cbv zeta.
    rewrite Hseg, <- Hpath. by apply IH.
Qed.

(** Navigation follows a chain of maps. *)
Lemma navigateToValue_along (h : heap) (rest : list string) :
  ∀ (pre : list string) (current target : loc),
    mapChain h current pre = Some target →
    navigateToValue h (VMap current) (pre ++ rest)
    = navigateToValue h (VMap target) rest.
Proof.
  intros pre.
  induction pre as [|segment pre IH]; intros current target Hchain.
  - by injection Hchain as ->.
  - cbn [mapChain] in Hchain. cbn [app navigateToValue].
    destruct (mapIndex h current segment) as [[| | | | |nextMap]|]; try done.
    by apply IH.
Qed.

(** A key that is there is read as before after an assignment to a key
    that was absent. *)
Lemma mapIndex_mapAssign_absent (h : heap) (target r : loc) (key segment : string)
    (v val : value) :
  mapIndex h target key = None →
  mapIndex h r segment = Some val →
  mapIndex (mapAssign h target key v) r segment = Some val.
Proof.
  intros Habsent Hval.
  destruct (decide (r = target)) as [->|Hne].
  - destruct (decide (target < length h)%nat) as [Hlt|Hge].
    + unfold mapIndex in *.
      rewrite (mapAt_Some _ _ _ (lookup_mapAssign_eq h target key v Hlt)).
      rewrite lookup_insert_ne; [exact Hval|]. intros <-. congruence.
    + unfold mapAssign. by rewrite list_insert_ge by lia.
  - rewrite <- Hval. apply mapIndex_lookup. by apply lookup_mapAssign_ne.
Qed.

(** Adding a key to a map keeps every navigation that succeeds. *)
Lemma navigateToValue_mapAssign_absent (h : heap) (target : loc) (key : string)
    (v : value) (pathSegments : list string) :
  mapIndex h target key = None →
  ∀ data u,
    navigateToValue h data pathSegments = Ok u →
    navigateToValue (mapAssign h target key v) data pathSegments = Ok u.
Proof.
  intros Habsent.
  induction pathSegments as [|segment rest IH]; intros data u; [done|].
  cbn [navigateToValue].
  destruct data as [| | | |l|r]; try done.
  - destruct (scanIndex 0 0 segment); [|done].
    destruct segment; [done|]. cbv zeta.
    destruct (_ || _); [done|]. destruct (l !! _); [by apply IH|done].
  - destruct (mapIndex h r segment) as [val|] eqn:Hval; [|done].
    rewrite (mapIndex_mapAssign_absent _ _ _ _ _ v _ Habsent Hval). by apply IH.
Qed.

Lemma mapChain_mapAssign_absent (h : heap) (target : loc) (key : string)
    (v : value) (pathSegments : list string) :
  mapIndex h target key = None →
  ∀ current reached,
    mapChain h current pathSegments = Some reached →
    mapChain (mapAssign h target key v) current pathSegments = Some reached.
Proof.
  intros Habsent.
  induction pathSegments as [|segment rest IH]; intros current reached; [done|].
  cbn [mapChain].
  destruct (mapIndex h current segment) as [val|] eqn:Hval; [|done].
  rewrite (mapIndex_mapAssign_absent _ _ _ _ _ v _ Habsent Hval).
  destruct val; try done. by apply IH.
Qed.

(** Assembly from a map without keys: the maps it makes form a chain along
    the path, and the last of them holds the value under the last segment
    and nothing else. *)
Lemma buildResultStructure_fresh_chain (v : value) (last : string)
    (pre : list string) :
  ∀ (h : heap) (current : loc),
    Forall (λ s, isNumeric s = false) (tail (pre ++ [last])) →
    h !! current = Some ∅ →
    ∃ target,
      mapChain (buildResultStructure h current (pre ++ [last]) v) current pre
      = Some target
      ∧ buildResultStructure h current (pre ++ [last]) v !! target
        = Some (<[last := v]> ∅)
      ∧ (target = current ∨ length h ≤ target)%nat.
Proof.
  induction pre as [|segment pre IH]; intros h current Hnum Hcur.
  - exists current. cbn [app buildResultStructure mapChain].
    split; [done|]. split; [|by left].
    rewrite lookup_mapAssign_eq by (by eapply lookup_lt_Some).
    by rewrite (mapAt_Some _ _ _ Hcur).
  - pose proof (lookup_lt_Some _ _ _ Hcur) as Hlt.
    assert (∃ nextSegment rest', pre ++ [last] = nextSegment :: rest')
      as (nextSegment & rest' & Hpath) by (destruct pre; by eauto).
    cbn [app tail] in Hnum |- *. rewrite Hpath in Hnum |- *.
    pose proof Hnum as Hrest. apply Forall_cons in Hrest as [Hnext Hrest].
    rewrite buildResultStructure_new_map;
      [|done|unfold mapIndex; by rewrite (mapAt_Some _ _ _ Hcur)|done].
    set (fresh := length h).
    set (h2 := mapAssign (h ++ [∅]) current segment (VMap fresh)).
    assert (length h2 = S (length h)) as Hlen2.
    { unfold h2. rewrite length_mapAssign, length_app. cbn. lia. }
    assert (h2 !! current = Some (<[segment := VMap fresh]> ∅)) as Hcur2.
    { unfold h2. rewrite lookup_mapAssign_eq by (rewrite length_app; cbn; lia).
      rewrite (mapAt_Some _ _ ∅); [done|]. by rewrite lookup_app_l. }
    assert (h2 !! fresh = Some ∅) as Hfresh2.
    { unfold h2. rewrite lookup_mapAssign_ne by (unfold fresh; lia).
      unfold fresh. by rewrite lookup_app_r, Nat.sub_diag by lia. }
    rewrite <- Hpath.
    assert (Forall (λ s, isNumeric s = false) (tail (pre ++ [last]))) as Htail
      by (rewrite Hpath; exact Hrest).
    destruct (IH h2 fresh Htail Hfresh2) as (target & Hchain & Htarget & Hwhere).
    destruct (buildResultStructure_fresh v (pre ++ [last]) h2 fresh
                ltac:(by destruct pre) Htail Hfresh2) as (_ & _ & Hframe).
    exists target. split; [|split; [exact Htarget|]].
    + cbn [mapChain]. unfold mapIndex.
      rewrite (mapAt_Some _ current (<[segment := VMap fresh]> ∅)).
      * rewrite lookup_insert_eq. exact Hchain.
      * rewrite Hframe by (unfold fresh in *; lia). exact Hcur2.
    + right. destruct Hwhere as [->|Hge]; unfold fresh in *; lia.
Qed.

(** X9.  Two [KeepPath] rules for two fields of one parent are both kept
    under that parent: when both paths resolve and no segment after the
    first of the first path is numeric, the result holds each value at its
    path, and the maps of the document are as they were. *)
Theorem KeepPath_siblings_merge (h : heap) (data vp vq : value) (p q : string)
    (parent : list string) (a b : string) :
  splitDot p = parent ++ [a] →
  splitDot q = parent ++ [b] →
  a ≠ b →
  Forall (λ s, isNumeric s = false) (tail (splitDot p)) →
  navigateToValue h data (splitDot p) = Ok vp →
  navigateToValue h data (splitDot q) = Ok vq →
  ∃ h', applyRules h data [NewKeepPathRule p; NewKeepPathRule q]
        = Ok (h', VMap (length h))
        ∧ navigateToValue h' (VMap (length h)) (splitDot p) = Ok vp
        ∧ navigateToValue h' (VMap (length h)) (splitDot q) = Ok vq
        ∧ ∀ r, (r < length h)%nat → h' !! r = h !! r.
Proof.
  intros Hsp Hsq Hab Hobj Hp Hq.
  set (result := length h). set (h0 := h ++ [∅]).
  assert (h0 !! result = Some (∅ : gmap string value)) as Hres0
    by (unfold h0, result; by rewrite lookup_app_r, Nat.sub_diag by lia).
  assert (length h0 = S (length h)) as Hlen0
    by (unfold h0; rewrite length_app; cbn; lia).
  (* the first rule *)
  set (h1 := buildResultStructure h0 result (splitDot p) vp).
  destruct (buildResultStructure_fresh vp (splitDot p) h0 result
              (splitDot_nonempty p) Hobj Hres0) as (Hnavp1 & Hlen1 & Hframe1).
  fold h1 in Hnavp1, Hlen1, Hframe1.
  assert (∀ r, (r < length h)%nat → h1 !! r = h !! r) as Hdoc1.
  { intros r Hr. rewrite Hframe1 by (unfold result; lia).
    unfold h0. by rewrite lookup_app_l. }
  destruct (buildResultStructure_fresh_chain vp a parent h0 result
              ltac:(by rewrite <- Hsp) Hres0)
    as (target & Hchain1 & Htarget1 & Hwhere).
  rewrite <- Hsp in Hchain1, Htarget1. fold h1 in Hchain1, Htarget1.
  assert (length h ≤ target)%nat as Hge
    by (destruct Hwhere as [->|?]; unfold result; lia).
  assert (mapIndex h1 target b = None) as Habsent.
  { unfold mapIndex. rewrite (mapAt_Some _ _ _ Htarget1).
    by rewrite lookup_insert_ne, lookup_empty. }
  (* the second rule *)
  assert (navigateToValue h1 data (splitDot q) = Ok vq) as Hq1.
  { apply (navigateToValue_frame h h1); [|done].
    intros r key Hr _. by apply mapIndex_lookup, Hdoc1. }
  set (h2 := buildResultStructure h1 result (splitDot q) vq).
  assert (h2 = mapAssign h1 target b vq) as Hh2.
  { unfold h2. rewrite Hsq.
    by rewrite (buildResultStructure_along h1 [b] vq ltac:(done) parent result
                  target Hchain1). }
  exists h2. split; [|split; [|split]].
  - unfold applyRules, makeMap. fold h0 result. cbn [applyRulesLoop].
    unfold applyRule, NewKeepPathRule; cbn.
    unfold applyKeepPathRule; cbv zeta.
    pose proof (navigateToValue_makeMap h (splitDot p) data) as Hmk.
    unfold makeMap in Hmk; cbn [fst] in Hmk. fold h0 in Hmk.
    rewrite Hmk, Hp. fold h1. by rewrite Hq1.
  - rewrite Hh2. by apply navigateToValue_mapAssign_absent.
  - rewrite Hh2, Hsq.
    rewrite (navigateToValue_along _ [b] parent result target)
      by (by apply mapChain_mapAssign_absent).
    cbn [navigateToValue]. unfold mapIndex.
    rewrite (mapAt_Some _ _ _ (lookup_mapAssign_eq h1 target b vq
                                 (lookup_lt_Some _ _ _ Htarget1))).
    by rewrite lookup_insert_eq.
  - intros r Hr. rewrite Hh2, lookup_mapAssign_ne by lia. by apply Hdoc1.
Qed.

Lemma KeepPath_siblings_merge_witness :
  ∃ h', applyRules Examples.shopHeap Examples.shop
          [NewKeepPathRule "user.name"; NewKeepPathRule "user.age"]
        = Ok (h', VMap 5%nat)
        ∧ navigateToValue h' (VMap 5%nat) (splitDot "user.name")
          = Ok (VString "John Doe")
        ∧ navigateToValue h' (VMap 5%nat) (splitDot "user.age")
          = Ok (VNum (num 30))
        ∧ ∀ r, (r < 5)%nat → h' !! r = Examples.shopHeap !! r.
Proof.
  apply (KeepPath_siblings_merge Examples.shopHeap Examples.shop
           (VString "John Doe") (VNum (num 30)) "user.name" "user.age"
           ["user"] "name" "age");
    [reflexivity|reflexivity|discriminate| |evaluate|evaluate].
  repeat (apply List.Forall_cons; [reflexivity|]). apply List.Forall_nil.
Defined.

(** From an array without elements a numeric segment is never found. *)
Lemma navigateToValue_empty_array (h : heap) (segment : string)
    (rest : list string) :
  isNumeric segment = true →
  navigateToValue h (VSlice []) (segment :: rest) = Err ErrPathNotFound.
Proof.
  intros Hnum. cbn [navigateToValue].
  destruct (scanIndex 0 0 segment) as [index|] eqn:Hscan.
  - destruct segment as [|c0 tail]; [done|]. cbv zeta. cbn [length].
    set (i1 := if Ascii.eqb c0 "-" then wrapInt (- index) else index).
    assert (((if i1 <? 0 then Z.of_nat 0 + i1 else i1) <? 0)
            || ((if i1 <? 0 then Z.of_nat 0 + i1 else i1) >=? Z.of_nat 0)
            = true) as ->; [|done].
    rewrite Z.geb_leb. apply orb_true_iff.
    destruct (Z.ltb_spec i1 0); [left; apply Z.ltb_lt|right; apply Z.leb_le]; lia.
  - apply scanIndex_accepts in Hscan as [Hno _]. congruence.
Qed.

(** A new array node: the key is absent and the next segment is numeric.
    The loop stores an empty array and leaves; the value is not stored. *)
Lemma buildResultStructure_new_array (h : heap) (current : loc)
    (segment nextSegment : string) (rest : list string) (v : value) :
  (current < length h)%nat →
  mapIndex h current segment = None →
  isNumeric nextSegment = true →
  buildResultStructure h current (segment :: nextSegment :: rest) v
  = mapAssign h current segment (VSlice []).
Proof.
  intros Hlt Habsent Hnext.
  rewrite buildResultStructure_step, Habsent, Hnext. cbv zeta.
  unfold mapIndex.
  rewrite (mapAt_Some _ _ _ (lookup_mapAssign_eq _ current segment
                               (VSlice []) Hlt)).
  by rewrite lookup_insert_eq.
Qed.

(** Assembly from a map without keys along a path whose first numeric
    segment (after the first segment) is [index]: an empty array is left
    where the path reaches [index]. *)
Lemma buildResultStructure_stops_at_index (v : value) (segment index : string)
    (rest : list string) (before : list string) :
  ∀ (h : heap) (current : loc),
    Forall (λ s, isNumeric s = false) (tail (before ++ [segment])) →
    isNumeric index = true →
    h !! current = Some ∅ →
    navigateToValue
      (buildResultStructure h current (before ++ segment :: index :: rest) v)
      (VMap current) (before ++ [segment]) = Ok (VSlice [])
    ∧ (length h
       ≤ length (buildResultStructure h current
                   (before ++ segment :: index :: rest) v))%nat
    ∧ ∀ r, (r < length h)%nat → r ≠ current →
           buildResultStructure h current
             (before ++ segment :: index :: rest) v !! r = h !! r.
Proof.
  induction before as [|first before IH]; intros h current Hobj Hindex Hcur;
    pose proof (lookup_lt_Some _ _ _ Hcur) as Hlt.
  - cbn [app]. rewrite buildResultStructure_new_array;
      [|done|unfold mapIndex; by rewrite (mapAt_Some _ _ _ Hcur)|done].
    cbn [navigateToValue]. unfold mapIndex.
    rewrite (mapAt_Some _ _ _ (lookup_mapAssign_eq h current segment _ Hlt)).
    rewrite lookup_insert_eq, length_mapAssign.
    split; [done|split; [lia|]].
    intros r _ Hr. by apply lookup_mapAssign_ne.
  - cbn [app tail] in Hobj.
    assert (∃ next others,
              before ++ segment :: index :: rest = next :: others
              ∧ isNumeric next = false) as (next & others & Hpath & Hnext).
    { destruct before as [|b before'].
      - exists segment, (index :: rest). cbn.
        by apply Forall_cons in Hobj as [? _].
      - exists b, (before' ++ segment :: index :: rest). cbn.
        by apply Forall_cons in Hobj as [? _]. }
    cbn [app]. rewrite Hpath.
    rewrite buildResultStructure_new_map;
      [|done|unfold mapIndex; by rewrite (mapAt_Some _ _ _ Hcur)|done].
    rewrite <- Hpath.
    set (fresh := length h).
    set (h2 := mapAssign (h ++ [∅]) current first (VMap fresh)).
    assert (length h2 = S (length h)) as Hlen2.
    { unfold h2. rewrite length_mapAssign, length_app. cbn. lia. }
    assert (h2 !! current = Some (<[first := VMap fresh]> ∅)) as Hcur2.
    { unfold h2. rewrite lookup_mapAssign_eq by (rewrite length_app; cbn; lia).
      rewrite (mapAt_Some _ _ ∅); [done|]. by rewrite lookup_app_l. }
    assert (h2 !! fresh = Some ∅) as Hfresh2.
    { unfold h2. rewrite lookup_mapAssign_ne by (unfold fresh; lia).
      unfold fresh. by rewrite lookup_app_r, Nat.sub_diag by lia. }
    assert (Forall (λ s, isNumeric s = false) (tail (before ++ [segment])))
      as Hobj'.
    { destruct before; [by constructor|].
      cbn in Hobj |- *. by apply Forall_cons in Hobj as [_ ?]. }
    destruct (IH h2 fresh Hobj' Hindex Hfresh2) as (Hnav & Hlen & Hframe).
    split; [|split; [lia|]].
    + change (navigateToValue ?h' (VMap current) (first :: ?p))
        with (match mapIndex h' current first with
              | None => Err ErrPathNotFound
              | Some val => navigateToValue h' val p
              end).
      unfold mapIndex.
      rewrite (mapAt_Some _ current (<[first := VMap fresh]> ∅)).
      * rewrite lookup_insert_eq. exact Hnav.
      * rewrite Hframe by (unfold fresh in *; lia). exact Hcur2.
    + intros r Hr Hrc. rewrite Hframe by (unfold fresh in *; lia).
      unfold h2. rewrite lookup_mapAssign_ne by done.
      by rewrite lookup_app_l.
Qed.

(** X10.  A [KeepPath] rule whose path has a numeric segment after the first
    does not keep the value: when the path resolves in the document, the
    result holds an empty array where the path reaches its first such
    segment, and the path does not resolve in the result. *)
Theorem KeepPath_index_segment_loses_value (h : heap) (data v : value)
    (path segment index : string) (before rest : list string) :
  splitDot path = before ++ segment :: index :: rest →
  Forall (λ s, isNumeric s = false) (tail (before ++ [segment])) →
  isNumeric index = true →
  navigateToValue h data (splitDot path) = Ok v →
  ∃ h', applyRules h data [NewKeepPathRule path] = Ok (h', VMap (length h))
        ∧ navigateToValue h' (VMap (length h)) (before ++ [segment])
          = Ok (VSlice [])
        ∧ navigateToValue h' (VMap (length h)) (splitDot path)
          = Err ErrPathNotFound
        ∧ ∀ r, (r < length h)%nat → h' !! r = h !! r.
Proof.
  intros Hpath Hobj Hindex Hnav.
  unfold applyRules, makeMap. cbn [applyRulesLoop].
  unfold applyRule, NewKeepPathRule; cbn.
  unfold applyKeepPathRule; cbv zeta.
  pose proof (navigateToValue_makeMap h (splitDot path) data) as Hmk.
  unfold makeMap in Hmk; cbn [fst] in Hmk. rewrite Hmk, Hnav.
  assert ((h ++ [∅]) !! length h = Some (∅ : gmap string value)) as Hres
    by (by rewrite lookup_app_r, Nat.sub_diag by lia).
  destruct (buildResultStructure_stops_at_index v segment index rest before
              (h ++ [∅]) (length h) Hobj Hindex Hres) as (Hstop & _ & Hframe).
  rewrite <- Hpath in Hstop, Hframe.
  eexists. split; [reflexivity|]. split; [exact Hstop|]. split.
  - rewrite Hpath at 2.
    change (before ++ segment :: index :: rest)
      with (before ++ [segment] ++ index :: rest).
    rewrite app_assoc, navigateToValue_app, Hstop. cbn [andThen].
    by apply navigateToValue_empty_array.
  - intros r Hr. rewrite Hframe by (rewrite ?length_app; cbn; lia).
    by rewrite lookup_app_l.
Qed.

Lemma KeepPath_index_segment_loses_value_witness :
  ∃ h', applyRules Examples.shopHeap Examples.shop [NewKeepPathRule "orders.-1.id"]
        = Ok (h', VMap 5%nat)
        ∧ navigateToValue h' (VMap 5%nat) ["orders"] = Ok (VSlice [])
        ∧ navigateToValue h' (VMap 5%nat) (splitDot "orders.-1.id")
          = Err ErrPathNotFound
        ∧ ∀ r, (r < 5)%nat → h' !! r = Examples.shopHeap !! r.
Proof.
  apply (KeepPath_index_segment_loses_value Examples.shopHeap Examples.shop
           (VNum (num 2)) "orders.-1.id" "orders" "-1" [] ["id"]);
    [reflexivity|apply List.Forall_nil|reflexivity|evaluate].
Defined.

(** ** Errors *)

(** Navigation returns no other error than its two. *)
Lemma navigateToValue_errors (h : heap) (pathSegments : list string) :
  ∀ data e,
    navigateToValue h data pathSegments = Err e →
    e = ErrPathNotFound ∨ e = ErrInvalidPath.
Proof.
  induction pathSegments as [|segment rest IH]; intros data e; [done|].
  cbn [navigateToValue].
  destruct data as [| | | |l|r]; try (intros [= <-]; by left).
  - destruct (scanIndex 0 0 segment); [|intros [= <-]; by right].
    destruct segment; [done|]. cbv zeta.
    destruct (_ || _); [intros [= <-]; by left|].
    destruct (l !! _); [apply IH|done].
  - destruct (mapIndex h r segment); [apply IH|intros [= <-]; by left].
Qed.

(** The errors of one rule: a navigation error or the array error for a
    rule of a recognized type, [ErrInvalidRule] for any other rule. *)
Lemma applyRule_errors (h : heap) (data : value) (rule : Rule) (result : loc)
    (e : error) :
  applyRule h data rule result = Err e →
  (recognized rule
   ∧ (e = ErrPathNotFound ∨ e = ErrInvalidPath ∨ e = ErrNotAnArray))
  ∨ (¬ recognized rule ∧ e = ErrInvalidRule).
Proof.
  unfold applyRule, recognized.
  destruct (Z.eqb_spec (Type_ rule) KeepPath) as [Ht|Ht0].
  { unfold applyKeepPathRule; cbv zeta. intros Herr. left. split; [by left|].
    destruct (navigateToValue h data _) as [v|e'|] eqn:Hnav; [done| |done].
    injection Herr as ->. destruct (navigateToValue_errors _ _ _ _ Hnav); auto. }
  destruct (Z.eqb_spec (Type_ rule) KeepParentIfValueMatches) as [Ht|Ht1].
  { unfold applyKeepParentIfValueMatchesRule; cbv zeta. intros Herr. left.
    split; [right; by left|].
    destruct (navigateToValue h data (splitDot _)) as [v|e'|] eqn:Hnav;
      [|injection Herr as ->;
        destruct (navigateToValue_errors _ _ _ _ Hnav); auto|done].
    destruct (negb _); [done|]. destruct (_ <? _)%nat; [|done].
    destruct (navigateToValue h data (take _ _)) as [pv|e'|] eqn:Hparent;
      [done| |done].
    injection Herr as ->.
    destruct (navigateToValue_errors _ _ _ _ Hparent); auto. }
  destruct (Z.eqb_spec (Type_ rule) KeepArrayElementsIfChildValueMatches)
    as [Ht|Ht2].
  { unfold applyKeepArrayElementsIfChildValueMatchesRule; cbv zeta.
    intros Herr. left. split; [right; by right|].
    destruct (navigateToValue h data (splitDot _)) as [v|e'|] eqn:Hnav;
      [|injection Herr as ->;
        destruct (navigateToValue_errors _ _ _ _ Hnav); auto|done].
    destruct v as [| | | |array|]; try (injection Herr as <-; auto).
    rewrite filterElements_filter in Herr.
    destruct (existsb _ array); [done|]. by destruct (_ <? _)%nat. }
  intros [= <-]. right. split; [|done]. intros [?|[?|?]]; done.
Qed.

(** The errors [applyRules] can return. *)
Lemma applyRules_error_cases (h : heap) (data : value) (rules : list Rule)
    (e : error) :
  applyRules h data rules = Err e →
  e = ErrInvalidPath ∨ e = ErrNotAnArray
  ∨ (e = ErrInvalidRule ∧ ¬ Forall recognized rules).
Proof.
  unfold applyRules. destruct (makeMap h) as [h0 result].
  destruct (applyRulesLoop h0 data rules result) as [h'|e'|] eqn:Hloop;
    [done| |done].
  intros [= ->]. revert h0 Hloop.
  induction rules as [|rule rules IH]; intros h0; cbn [applyRulesLoop]; [done|].
  destruct (applyRule h0 data rule result) as [h1|e1|] eqn:Hrule; [| |done].
  - intros Hloop. destruct (IH _ Hloop) as [?|[?|[? Hnot]]]; auto.
    right; right. split; [done|]. intros Hall.
    apply Forall_cons in Hall as [_ ?]. by apply Hnot.
  - destruct (decide (e1 = ErrPathNotFound)) as [->|Hne].
    + intros Hloop. destruct (IH _ Hloop) as [?|[?|[? Hnot]]]; auto.
      right; right. split; [done|]. intros Hall.
      apply Forall_cons in Hall as [_ ?]. by apply Hnot.
    + intros [= ->].
      destruct (applyRule_errors _ _ _ _ _ Hrule)
        as [[_ [?|[?|?]]]|[Hnot ?]]; auto; [done|].
      right; right. split; [done|]. intros Hall.
      apply Forall_cons in Hall as [? _]. by apply Hnot.
Qed.

(** X11.  The errors of [applyRules]: with rules of recognized types only,
    it returns no other error than [ErrInvalidPath] and the array error;
    it returns [ErrInvalidRule] only when some rule has another type, and
    such a rule, once the loop reaches it, makes the loop return that
    error whatever the rules before it have stored. *)
Theorem applyRules_errors (h : heap) (data : value) (rules : list Rule)
    (e : error) :
  (applyRules h data rules = Err e →
   e = ErrInvalidPath ∨ e = ErrNotAnArray
   ∨ (e = ErrInvalidRule ∧ ¬ Forall recognized rules))
  ∧ (∀ (h0 : heap) (rule : Rule) (rest : list Rule) (result : loc),
       ¬ recognized rule →
       applyRulesLoop h0 data (rule :: rest) result = Err ErrInvalidRule).
Proof.
  split; [apply applyRules_error_cases|].
  intros h0 rule rest result Hnot. cbn [applyRulesLoop].
  assert (applyRule h0 data rule result = Err ErrInvalidRule) as ->; [|done].
  unfold applyRule, recognized in *.
  destruct (Z.eqb_spec (Type_ rule) KeepPath); [tauto|].
  destruct (Z.eqb_spec (Type_ rule) KeepParentIfValueMatches); [tauto|].
  destruct (Z.eqb_spec (Type_ rule) KeepArrayElementsIfChildValueMatches);
    [tauto|done].
Qed.

Lemma applyRules_errors_witness :
  applyRulesLoop Examples.shopAtRules Examples.shop
    [mkRule 7 "user" VNil EmptyString; NewKeepPathRule "user.name"]
    Examples.shopResult
  = Err ErrInvalidRule.
Proof.
  apply (applyRules_errors Examples.shopHeap Examples.shop [] ErrInvalidRule).
  intros [H|[H|H]]; discriminate.
Defined.

(** X12.  [CutWithRules] returns [ErrInvalidJSON] exactly when the input is
    empty or is not decoded; no rule produces this error. *)
Theorem CutWithRules_ErrInvalidJSON `{JSONCodec} (h : heap) (jsonData : string)
    (rules : list Rule) :
  CutWithRules h jsonData rules = Err ErrInvalidJSON
  ↔ String.length jsonData = O ∨ json_Unmarshal h jsonData = None.
Proof.
  unfold CutWithRules.
  destruct (Nat.eqb_spec (String.length jsonData) 0) as [Hlen|Hlen];
    [split; auto|].
  destruct (json_Unmarshal h jsonData) as [[h1 data]|]; [|split; auto].
  split; [|intros [?|?]; done].
  pose proof (applyRules_error_cases h1 data rules ErrInvalidJSON) as Herr.
  destruct (applyRules h1 data rules) as [[h2 result]|e|]; [| |done].
  - by destruct (json_Marshal h2 result).
  - intros [= ->]. destruct (Herr eq_refl) as [?|[?|[? _]]]; done.
Qed.

(** ** How the rules relate *)

Lemma Forall_removelast {A : Type} (P : A → Prop) (l : list A) :
  Forall P l → Forall P (removelast l).
Proof.
  induction 1 as [|a l Ha Hl IH]; [constructor|].
  destruct l as [|b l]; [constructor|]. cbn [removelast] in *.
  by constructor.
Qed.

(** X13.  A [KeepParentIfValueMatches] rule whose value matches does what
    [KeepPath] does: on the parent path (the segments but the last, joined
    with dots) for a path of several segments, on the path itself for a
    path of one segment. *)
Theorem KeepParentIfValueMatches_as_KeepPath (h : heap)
    (data expectedValue v : value) (path : string) (result : loc) :
  navigateToValue h data (splitDot path) = Ok v →
  valueEquals h v expectedValue = true →
  applyKeepParentIfValueMatchesRule h data path expectedValue result
  = applyKeepPathRule h data
      (if (1 <? length (splitDot path))%nat
       then String.concat "." (removelast (splitDot path))
       else path)
      result.
Proof.
  intros Hnav Heq.
  unfold applyKeepParentIfValueMatchesRule, applyKeepPathRule; cbv zeta.
  rewrite Hnav, Heq. cbn [negb].
  destruct (Nat.ltb_spec 1 (length (splitDot path))) as [Hlen|Hlen];
    [|by rewrite Hnav].
  rewrite take_pred_length_removelast.
  rewrite splitDot_of_concat; [reflexivity| |].
  - destruct (splitDot path) as [|a [|b l]]; cbn in Hlen |- *; [lia..|done].
  - apply Forall_removelast, splitDot_dotFree.
Qed.

Lemma KeepParentIfValueMatches_as_KeepPath_witness :
  applyKeepParentIfValueMatchesRule Examples.shopAtRules Examples.shop
    "user.preferences.theme" (VString "dark") Examples.shopResult
  = applyKeepPathRule Examples.shopAtRules Examples.shop "user.preferences"
      Examples.shopResult.
Proof.
  apply (KeepParentIfValueMatches_as_KeepPath Examples.shopAtRules Examples.shop
           (VString "dark") (VString "dark") "user.preferences.theme");
    evaluate.
Defined.

Lemma filter_all {A : Type} (f : A → bool) (l : list A) :
  Forall (λ x, f x = true) l → List.filter f l = l.
Proof.
  induction 1 as [|x l Hx Hl IH]; [reflexivity|].
  cbn. by rewrite Hx, IH.
Qed.

(** X14.  An array rule all of whose elements match does what [KeepPath]
    does on the array path, unless the array is empty: an empty array is
    not kept. *)
Theorem KeepArrayElements_all_match (h : heap) (data expectedValue : value)
    (arrayPath childPath : string) (result : loc) (array : list value) :
  navigateToValue h data (splitDot arrayPath) = Ok (VSlice array) →
  Forall (λ element,
            childMatches h (splitDot childPath) expectedValue element = true)
    array →
  applyKeepArrayElementsIfChildValueMatchesRule h data arrayPath childPath
    expectedValue result
  = match array with
    | [] => Ok h
    | _ => applyKeepPathRule h data arrayPath result
    end.
Proof.
  intros Hnav Hall.
  unfold applyKeepArrayElementsIfChildValueMatchesRule, applyKeepPathRule;
    cbv zeta.
  rewrite Hnav, filterElements_filter, app_nil_l, (filter_all _ _ Hall).
  assert (existsb (childPanics h (splitDot childPath)) array = false) as ->.
  { apply not_true_is_false. intros (element & Hin & Hp)%existsb_exists.
    rewrite Forall_forall in Hall. apply list_elem_of_In in Hin.
    specialize (Hall element Hin).
    unfold childPanics in Hp. unfold childMatches in Hall.
    by destruct (navigateToValue h element (splitDot childPath)). }
  by destruct array.
Qed.

Lemma KeepArrayElements_all_match_witness :
  applyKeepArrayElementsIfChildValueMatchesRule (makeMap Examples.rowsHeap).1
    Examples.rows "rows" "0" (VNum (num 1)) 1%nat
  = applyKeepPathRule (makeMap Examples.rowsHeap).1 Examples.rows "rows" 1%nat.
Proof.
  apply (KeepArrayElements_all_match (makeMap Examples.rowsHeap).1 Examples.rows
           (VNum (num 1)) "rows" "0" 1%nat
           [VSlice [VNum (num 1); VNum (num 2)]]); [evaluate|].
  apply List.Forall_cons; [evaluate|apply List.Forall_nil].
Defined.

(** ** Deep equality *)

(** X15.  [valueEquals] is an equivalence on the values that stand for
    documents: every value deep-equals itself, and on values with
    documents deep equality is symmetric and transitive. *)
Theorem valueEquals_equivalence (h : heap) :
  (∀ a, valueEquals h a a = true)
  ∧ (∀ a b ta tb,
       document h a = Some ta → document h b = Some tb →
       valueEquals h a b = valueEquals h b a)
  ∧ (∀ a b c ta tb tc,
       document h a = Some ta → document h b = Some tb →
       document h c = Some tc →
       valueEquals h a b = true → valueEquals h b c = true →
       valueEquals h a c = true).
Proof.
  unfold valueEquals, document. split; [intros a; apply deepEqual_refl|split].
  - intros a b ta tb Ha Hb.
    pose proof (deepEqual_denote _ h a b ta tb Ha Hb) as Hab.
    pose proof (deepEqual_denote _ h b a tb ta Hb Ha) as Hba.
    destruct (deepEqual (length h) h a b), (deepEqual (length h) h b a);
      try done.
    + symmetry. apply Hba. symmetry. by apply Hab.
    + apply Hab. symmetry. by apply Hba.
  - intros a b c ta tb tc Ha Hb Hc Hab Hbc.
    apply (deepEqual_denote _ h a b ta tb Ha Hb) in Hab.
    apply (deepEqual_denote _ h b c tb tc Hb Hc) in Hbc.
    apply (deepEqual_denote _ h a c ta tc Ha Hc). congruence.
Qed.

Lemma valueEquals_equivalence_witness :
  valueEquals Examples.shopAndExpectedHeap (VMap 5%nat) (VMap 2%nat)
  = valueEquals Examples.shopAndExpectedHeap (VMap 2%nat) (VMap 5%nat).
Proof.
  destruct (valueEquals_equivalence Examples.shopAndExpectedHeap)
    as (_ & Hsym & _).
  apply (Hsym (VMap 5%nat) (VMap 2%nat)
           (JObj {[ "theme" := JStr "dark"; "notifications" := JBool true ]})
           (JObj {[ "theme" := JStr "dark"; "notifications" := JBool true ]}));
    evaluate.
Defined.

(** ** Several paths *)

Lemma CutMultipleLoop_entries `{JSONCodec} (h : heap) (jsonData : string)
    (paths : list string) :
  Forall (λ path, Cut h jsonData path ≠ Panic) paths →
  ∀ acc, ∃ result,
    CutMultipleLoop h jsonData paths acc = Ok result
    ∧ ∀ path, result !! path
              = if decide (path ∈ paths) then Some (cutEntry h jsonData path)
                else acc !! path.
Proof.
  induction 1 as [|p paths Hp Hpaths IH]; intros acc.
  - exists acc. split; [reflexivity|]. intros path.
    by destruct (decide (path ∈ [])) as [?%elem_of_nil|].
  - cbn [CutMultipleLoop]. unfold Cut in Hp.
    destruct (CutWithRules h jsonData [NewKeepPathRule p]) as [cut|e|] eqn:Hcut;
      [| |done].
    + destruct (IH (<[p := Some cut]> acc)) as (result & -> & Hresult).
      exists result. split; [reflexivity|]. intros path. rewrite Hresult.
      destruct (decide (path ∈ paths)) as [Hin|Hout].
      * rewrite decide_True by (by right). reflexivity.
      * destruct (decide (path = p)) as [->|Hne].
        -- rewrite decide_True by (by left). rewrite lookup_insert_eq.
           unfold cutEntry, Cut. by rewrite Hcut.
        -- rewrite decide_False by (by intros [?|?]%elem_of_cons).
           by rewrite lookup_insert_ne.
    + destruct (IH (<[p := None]> acc)) as (result & -> & Hresult).
      exists result. split; [reflexivity|]. intros path. rewrite Hresult.
      destruct (decide (path ∈ paths)) as [Hin|Hout].
      * rewrite decide_True by (by right). reflexivity.
      * destruct (decide (path = p)) as [->|Hne].
        -- rewrite decide_True by (by left). rewrite lookup_insert_eq.
           unfold cutEntry, Cut. by rewrite Hcut.
        -- rewrite decide_False by (by intros [?|?]%elem_of_cons).
           by rewrite lookup_insert_ne.
Qed.

(** X16.  [CutMultiple] returns no error.  When no single cut panics it
    returns a map whose keys are the paths given, and the entry of a path
    is the output of [Cut] for that path, or nil when that cut returns an
    error. *)
Theorem CutMultiple_entries `{JSONCodec} (h : heap) (jsonData : string)
    (paths : list string) :
  (∀ e, CutMultiple h jsonData paths ≠ Err e)
  ∧ (Forall (λ path, Cut h jsonData path ≠ Panic) paths →
     ∃ result,
       CutMultiple h jsonData paths = Ok result
       ∧ ∀ path, result !! path
                 = if decide (path ∈ paths) then Some (cutEntry h jsonData path)
                   else None).
Proof.
  split.
  - intros e. unfold CutMultiple. generalize (∅ : gmap string (option string)).
    induction paths as [|p paths IH]; intros acc; cbn [CutMultipleLoop]; [done|].
    destruct (CutWithRules h jsonData [NewKeepPathRule p]); [apply IH..|done].
  - intros Hpaths.
    destruct (CutMultipleLoop_entries h jsonData paths Hpaths ∅)
      as (result & Hrun & Hresult).
    exists result. split; [exact Hrun|]. intros path. rewrite Hresult.
    by rewrite lookup_empty.
Qed.

Lemma CutMultiple_entries_witness :
  ∃ result,
    @CutMultiple Examples.shopCodec [] Examples.shopText ["user.email"]
    = Ok result
    ∧ ∀ path, result !! path
              = if decide (path ∈ ["user.email"])
                then Some (@cutEntry Examples.shopCodec [] Examples.shopText path)
                else None.
Proof.
  apply (@CutMultiple_entries Examples.shopCodec).
  apply List.Forall_cons; [|apply List.Forall_nil].
  vm_compute. discriminate.
Defined.

(** X17.  [Cut] with a path that is not found in the document returns no
    error: it returns the encoding of the result map without keys. *)
Theorem Cut_not_found `{JSONCodec} (h h1 : heap) (jsonData path : string)
    (data : value) :
  String.length jsonData ≠ O →
  json_Unmarshal h jsonData = Some (h1, data) →
  navigateToValue h1 data (splitDot path) = Err ErrPathNotFound →
  Cut h jsonData path
  = match json_Marshal (h1 ++ [∅]) (VMap (length h1)) with
    | Some output => Ok output
    | None => Err ErrMarshal
    end
  ∧ mapAt (h1 ++ [∅]) (length h1) = ∅.
Proof.
  intros Hlen Hdec Hnav. split.
  - unfold Cut, CutWithRules.
    apply Nat.eqb_neq in Hlen. rewrite Hlen, Hdec.
    unfold applyRules, makeMap. cbn [applyRulesLoop].
    unfold applyRule, NewKeepPathRule; cbn.
    unfold applyKeepPathRule; cbv zeta.
    pose proof (navigateToValue_makeMap h1 (splitDot path) data) as Hmk.
    unfold makeMap in Hmk; cbn [fst] in Hmk. rewrite Hmk, Hnav.
    by destruct (decide _).
  - apply mapAt_Some. by rewrite lookup_app_r, Nat.sub_diag by lia.
Qed.

Lemma Cut_not_found_witness :
  @Cut Examples.shopCodec [] Examples.shopText "user.email" = Ok "{}".
Proof.
  destruct (@Cut_not_found Examples.shopCodec [] Examples.shopHeap
              Examples.shopText "user.email" Examples.shop) as [-> _];
    [vm_compute; discriminate|evaluate..].
Defined.

(** ** Rules from a configuration ([cutjson/config.go]) *)

(** X18.  What [buildRuleFromConfig] accepts: [keep_path] with any
    [where], even an empty one; the two conditional types only with a
    non-empty [where] (and [child_path] for the array type) and the
    operator [equals]; nothing else.  An accepted configuration gives a
    rule of a recognized type on the path [where]. *)
Theorem buildRuleFromConfig_accepts (config : Config.RuleConfig) :
  ((∃ rule, Config.buildRuleFromConfig config = inr rule)
   ↔ Config.Type_ config = "keep_path"
     ∨ (Config.Type_ config = "keep_parent_if_value_matches"
        ∧ Config.Where config ≠ EmptyString
        ∧ Config.Op config = "equals")
     ∨ (Config.Type_ config = "keep_array_elements_if_child_value_matches"
        ∧ Config.Where config ≠ EmptyString
        ∧ Config.ChildPath config ≠ EmptyString
        ∧ Config.Op config = "equals"))
  ∧ ∀ rule,
      Config.buildRuleFromConfig config = inr rule →
      recognized rule ∧ Path rule = Config.Where config.
Proof.
  unfold Config.buildRuleFromConfig.
  destruct (String.eqb_spec (Config.Type_ config) "keep_path") as [Ht|Ht0].
  { split; [split; [auto|eauto]|]. intros rule [= <-]. split; [by left|done]. }
  destruct (String.eqb_spec (Config.Type_ config) "keep_parent_if_value_matches")
    as [Ht|Ht1].
  { destruct (String.eqb_spec (Config.Where config) EmptyString) as [Hw|Hw].
    { split; [|done]. split; [by intros [? ?]|].
      intros [?|[(_ & ? & _)|(? & _)]]; congruence. }
    destruct (String.eqb_spec (Config.Op config) "equals") as [Ho|Ho]; cbn [negb].
    - split; [split; [auto|eauto]|]. intros rule [= <-].
      split; [right; by left|done].
    - split; [|done]. split; [by intros [? ?]|].
      intros [?|[(_ & _ & ?)|(? & _)]]; congruence. }
  destruct (String.eqb_spec (Config.Type_ config)
              "keep_array_elements_if_child_value_matches") as [Ht|Ht2].
  { destruct (String.eqb_spec (Config.Where config) EmptyString) as [Hw|Hw].
    { split; [|done]. split; [by intros [? ?]|].
      intros [?|[(? & _)|(_ & ? & _)]]; congruence. }
    destruct (String.eqb_spec (Config.ChildPath config) EmptyString) as [Hc|Hc].
    { split; [|done]. split; [by intros [? ?]|].
      intros [?|[(? & _)|(_ & _ & ? & _)]]; congruence. }
    destruct (String.eqb_spec (Config.Op config) "equals") as [Ho|Ho]; cbn [negb].
    - split; [split; [auto 6|eauto]|]. intros rule [= <-].
      split; [right; by right|done].
    - split; [|done]. split; [by intros [? ?]|].
      intros [?|[(? & _)|(_ & _ & _ & ?)]]; congruence. }
  split; [|done]. split; [by intros [? ?]|].
  intros [?|[(? & _)|(? & _)]]; congruence.
Qed.

Lemma buildRuleFromConfig_accepts_witness :
  recognized (NewKeepPathRule EmptyString)
  ∧ Path (NewKeepPathRule EmptyString) = EmptyString.
Proof.
  apply (buildRuleFromConfig_accepts
           (Config.mkRuleConfig "keep_path" EmptyString EmptyString EmptyString VNil)).
  reflexivity.
Defined.

(** The loop keeps the rules built so far in front. *)
Lemma LoadRulesLoop_Forall2 (configs : list Config.RuleConfig) :
  ∀ built rules,
    Config.LoadRulesLoop configs built = inr rules
    ↔ ∃ new, rules = built ++ new
             ∧ Forall2 (λ config rule, Config.buildRuleFromConfig config = inr rule)
                 configs new.
Proof.
  induction configs as [|config configs IH]; intros built rules;
    cbn [Config.LoadRulesLoop].
  - split.
    + intros [= <-]. exists []. by rewrite app_nil_r.
    + intros (new & -> & ->%Forall2_nil_inv_l). by rewrite app_nil_r.
  - destruct (Config.buildRuleFromConfig config) as [err|rule] eqn:Hbuild.
    + split; [done|].
      intros (new & _ & (r & new' & Hr & _)%Forall2_cons_inv_l). congruence.
    + rewrite IH. split.
      * intros (new & -> & Hnew). exists (rule :: new).
        split; [by rewrite <- app_assoc|by constructor].
      * intros (new & -> & (r & new' & Hr & Hnew & ->)%Forall2_cons_inv_l).
        assert (r = rule) as -> by congruence.
        exists new'. split; [by rewrite <- app_assoc|done].
Qed.

(** X19.  [LoadRulesFromConfig] succeeds exactly when the file is read and
    decoded and every rule configuration is accepted; it then returns one
    rule for each configuration, in the order of the file. *)
Theorem LoadRulesFromConfig_rules `{Config.Source} (h h' : heap)
    (configPath : string) (rules : list Rule) :
  Config.LoadRulesFromConfig h configPath = inr (h', rules)
  ↔ ∃ configData configs,
      Config.os_ReadFile configPath = Some configData
      ∧ Config.json_UnmarshalConfig h configData = Some (h', configs)
      ∧ Forall2 (λ config rule, Config.buildRuleFromConfig config = inr rule)
          configs rules.
Proof.
  unfold Config.LoadRulesFromConfig. split.
  - destruct (Config.os_ReadFile configPath) as [configData|] eqn:Hread;
      [|done].
    destruct (Config.json_UnmarshalConfig h configData) as [[h1 configs]|]
      eqn:Hdec; [|done].
    destruct (Config.LoadRulesLoop configs []) as [err|rules'] eqn:Hloop;
      [done|].
    intros [= -> ->].
    apply LoadRulesLoop_Forall2 in Hloop as (new & -> & Hnew).
    exists configData, configs. split; [done|]. split; [done|exact Hnew].
  - intros (configData & configs & -> & -> & Hall).
    rewrite (proj2 (LoadRulesLoop_Forall2 configs [] rules)); [done|eauto].
Qed.

(** X20.  The loader fails with the error of the first configuration that
    is not accepted, whatever the configurations after it are. *)
Theorem LoadRulesLoop_first_error (before after : list Config.RuleConfig)
    (bad : Config.RuleConfig) (err : Config.error) (built : list Rule) :
  Forall (λ config, ∃ rule, Config.buildRuleFromConfig config = inr rule) before →
  Config.buildRuleFromConfig bad = inl err →
  Config.LoadRulesLoop (before ++ bad :: after) built = inl err.
Proof.
  intros Hbefore Hbad. revert built.
  induction Hbefore as [|config before [rule Hrule] Hbefore IH]; intros built;
    cbn [app Config.LoadRulesLoop].
  - by rewrite Hbad.
  - rewrite Hrule. apply IH.
Qed.

Lemma LoadRulesLoop_first_error_witness :
  Config.LoadRulesLoop
    [Config.mkRuleConfig "keep_path" "user.name" EmptyString EmptyString VNil;
     Config.mkRuleConfig "keep_parent_if_value_matches" "user.age" EmptyString
       "greater" (VNum (num 18));
     Config.mkRuleConfig "drop_path" "user" EmptyString EmptyString VNil] []
  = inl Config.KeepParentWithoutEquals.
Proof.
  apply (LoadRulesLoop_first_error
           [Config.mkRuleConfig "keep_path" "user.name" EmptyString EmptyString VNil]);
    [|reflexivity].
  apply List.Forall_cons; [by eexists|apply List.Forall_nil].
Defined.

Lemma buildRuleFromConfig_recognized (config : Config.RuleConfig) (rule : Rule) :
  Config.buildRuleFromConfig config = inr rule → recognized rule.
Proof.
  unfold Config.buildRuleFromConfig, recognized.
  repeat (destruct (String.eqb _ _); cbn [negb]; try done);
    intros [= <-]; cbn; auto.
Qed.

(** X21.  Rules loaded from a configuration all have a recognized type, so
    [CutWithRules] with them never returns [ErrInvalidRule]. *)
Theorem loaded_rules_are_recognized `{Config.Source} `{JSONCodec} (h h' : heap)
    (configPath : string) (rules : list Rule) :
  Config.LoadRulesFromConfig h configPath = inr (h', rules) →
  Forall recognized rules
  ∧ ∀ (h0 : heap) (jsonData : string),
      CutWithRules h0 jsonData rules ≠ Err ErrInvalidRule.
Proof.
  intros Hload.
  assert (Forall recognized rules) as Hrec.
  { unfold Config.LoadRulesFromConfig in Hload.
    destruct (Config.os_ReadFile configPath); [|done].
    destruct (Config.json_UnmarshalConfig h s) as [[h1 configs]|]; [|done].
    destruct (Config.LoadRulesLoop configs []) as [|rules'] eqn:Hloop; [done|].
    injection Hload as <- <-.
    apply LoadRulesLoop_Forall2 in Hloop as (new & -> & Hnew). cbn [app].
    induction Hnew as [|config rule configs' new Hbuild Hnew IH]; constructor;
      [by apply (buildRuleFromConfig_recognized config)|done]. }
  split; [exact Hrec|].
  intros h0 jsonData. unfold CutWithRules.
  destruct (Nat.eqb _ _); [done|].
  destruct (json_Unmarshal h0 jsonData) as [[h1 data]|]; [|done].
  pose proof (applyRules_error_cases h1 data rules ErrInvalidRule) as Herr.
  destruct (applyRules h1 data rules) as [[h2 result]|e|]; [| |done].
  - by destruct (json_Marshal h2 result).
  - intros [= ->]. destruct (Herr eq_refl) as [?|[?|[_ Hnot]]]; done.
Qed.

Lemma loaded_rules_are_recognized_witness :
  Forall recognized
    [NewKeepPathRule "user.name";
     NewKeepParentIfValueMatchesRule "user.age" (VNum (num 30))]
  ∧ ∀ (h0 : heap) (jsonData : string),
      @CutWithRules Examples.shopCodec h0 jsonData
        [NewKeepPathRule "user.name";
         NewKeepParentIfValueMatchesRule "user.age" (VNum (num 30))]
      ≠ Err ErrInvalidRule.
Proof.
  apply (@loaded_rules_are_recognized ConfigExamples.rulesSource
           Examples.shopCodec [] [] "rules.json").
  reflexivity.
Defined.

(** ** Rules from the command line ([cmd/cut_json/main.go]) *)

Lemma strings_Split_dot (path : string) : strings_Split "." path = splitDot path.
Proof.
  induction path as [|c rest IH]; [reflexivity|].
  cbn [strings_Split splitDot]. by rewrite IH.
Qed.

Lemma strings_Split_byteFree (sep : ascii) (s : string) :
  byteFree sep s = true → strings_Split sep s = [s].
Proof.
  induction s as [|c rest IH]; [reflexivity|].
  cbn [byteFree strings_Split].
  destruct (Ascii.eqb c sep); [done|]. cbn [negb andb].
  intros Hfree. by rewrite IH.
Qed.

Lemma strings_SplitN_2_byteFree (sep : ascii) (s : string) :
  byteFree sep s = true → strings_SplitN_2 sep s = [s].
Proof.
  induction s as [|c rest IH]; [reflexivity|].
  cbn [byteFree strings_SplitN_2].
  destruct (Ascii.eqb c sep); [done|]. cbn [negb andb].
  intros Hfree. by rewrite IH.
Qed.

Lemma strings_SplitN_2_first (sep : ascii) (before after : string) :
  byteFree sep before = true →
  strings_SplitN_2 sep (before +:+ String sep after) = [before; after].
Proof.
  induction before as [|c rest IH]; simpl.
  - by rewrite Ascii.eqb_refl.
  - destruct (Ascii.eqb c sep); [done|]. simpl.
    intros Hfree. by rewrite IH.
Qed.

Lemma keepPathLoop_filter `{Strings} (pathList : list string) :
  ∀ rules,
    Cmd.keepPathLoop pathList rules
    = rules ++ map NewKeepPathRule
                 (List.filter (λ path, negb (String.eqb path EmptyString))
                    (map strings_TrimSpace pathList)).
Proof.
  induction pathList as [|path rest IH]; intros rules;
    cbn [Cmd.keepPathLoop map List.filter].
  - by rewrite app_nil_r.
  - cbv zeta. destruct (negb (String.eqb (strings_TrimSpace path) EmptyString)).
    + rewrite IH. cbn [map]. by rewrite <- app_assoc.
    + apply IH.
Qed.

Lemma keepIfValueLoop_new `{Strings} `{JSONCodec} (pairs : list string) :
  ∀ h rules,
    ∃ new, (Cmd.keepIfValueLoop h pairs rules).2 = rules ++ new
           ∧ Forall (λ rule, Type_ rule = KeepParentIfValueMatches) new
           ∧ (length new ≤ length pairs)%nat.
Proof.
  induction pairs as [|item rest IH]; intros h rules; cbn [Cmd.keepIfValueLoop].
  - exists []. by rewrite app_nil_r.
  - cbv zeta.
    assert (∀ h1, ∃ new, (Cmd.keepIfValueLoop h1 rest rules).2 = rules ++ new
              ∧ Forall (λ rule, Type_ rule = KeepParentIfValueMatches) new
              ∧ (length new ≤ length (item :: rest))%nat) as Hskip.
    { intros h1. destruct (IH h1 rules) as (new & ? & ? & ?).
      exists new. cbn [length]. repeat split; [done|done|lia]. }
    destruct (String.eqb _ _); [apply Hskip|].
    destruct (strings_SplitN_2 _ _) as [|part0 [|part1 [|? ?]]]; try apply Hskip.
    destruct (Cmd.parsedValue _ _) as [h1 parsed].
    destruct (IH h1 (rules ++ [NewKeepParentIfValueMatchesRule
                                 (strings_TrimSpace part0) parsed]))
      as (new & Hnew & Htype & Hlen).
    exists (NewKeepParentIfValueMatchesRule (strings_TrimSpace part0) parsed :: new).
    rewrite Hnew, <- app_assoc. cbn [length].
    split; [done|]. split; [by constructor|lia].
Qed.

Lemma keepArrayMatchLoop_new `{Strings} `{JSONCodec} (pairs : list string) :
  ∀ h rules,
    ∃ new, (Cmd.keepArrayMatchLoop h pairs rules).2 = rules ++ new
           ∧ Forall (λ rule, Type_ rule = KeepArrayElementsIfChildValueMatches) new
           ∧ (length new ≤ length pairs)%nat.
Proof.
  induction pairs as [|item rest IH]; intros h rules;
    cbn [Cmd.keepArrayMatchLoop].
  - exists []. by rewrite app_nil_r.
  - cbv zeta.
    assert (∀ h1, ∃ new, (Cmd.keepArrayMatchLoop h1 rest rules).2 = rules ++ new
              ∧ Forall (λ rule, Type_ rule = KeepArrayElementsIfChildValueMatches) new
              ∧ (length new ≤ length (item :: rest))%nat) as Hskip.
    { intros h1. destruct (IH h1 rules) as (new & ? & ? & ?).
      exists new. cbn [length]. repeat split; [done|done|lia]. }
    destruct (String.eqb _ _); [apply Hskip|].
    destruct (strings_SplitN_2 ":" _) as [|pathPart0 [|pathPart1 [|? ?]]];
      try apply Hskip.
    destruct (strings_SplitN_2 "=" _) as [|condPart0 [|condPart1 [|? ?]]];
      try apply Hskip.
    destruct (Cmd.parsedValue _ _) as [h1 parsed].
    match goal with
    | |- context [rules ++ [?rule]] =>
        destruct (IH h1 (rules ++ [rule])) as (new & Hnew & Htype & Hlen);
        exists (rule :: new)
    end.
    rewrite Hnew, <- app_assoc. cbn [length].
    split; [done|]. split; [by constructor|lia].
Qed.

(** The three parts of the rules of [buildRules]. *)
Lemma buildRules_parts `{Strings} `{JSONCodec} (h : heap)
    (paths keepIfValue keepArrayMatch : string) :
  ∃ byValue byArray,
    (Cmd.buildRules h paths keepIfValue keepArrayMatch).2
    = (if String.eqb paths EmptyString then []
       else map NewKeepPathRule
              (List.filter (λ path, negb (String.eqb path EmptyString))
                 (map strings_TrimSpace (strings_Split "," paths))))
      ++ byValue ++ byArray
    ∧ Forall (λ rule, Type_ rule = KeepParentIfValueMatches) byValue
    ∧ (length byValue ≤ if String.eqb keepIfValue EmptyString then 0
                         else length (strings_Split "," keepIfValue))%nat
    ∧ Forall (λ rule, Type_ rule = KeepArrayElementsIfChildValueMatches) byArray
    ∧ (length byArray ≤ if String.eqb keepArrayMatch EmptyString then 0
                         else length (strings_Split "," keepArrayMatch))%nat.
Proof.
  unfold Cmd.buildRules. cbv zeta.
  set (byPath := if negb (String.eqb paths EmptyString)
                 then Cmd.keepPathLoop (strings_Split "," paths) [] else []).
  assert (byPath
          = if String.eqb paths EmptyString then []
            else map NewKeepPathRule
                   (List.filter (λ path, negb (String.eqb path EmptyString))
                      (map strings_TrimSpace (strings_Split "," paths))))
    as Hpath.
  { subst byPath. destruct (String.eqb paths EmptyString); [done|].
    cbn [negb]. by rewrite keepPathLoop_filter. }
  rewrite <- Hpath. clear Hpath. generalize byPath. clear byPath. intros byPath.
  assert (∃ h1 byValue,
            (if negb (String.eqb keepIfValue EmptyString)
             then Cmd.keepIfValueLoop h (strings_Split "," keepIfValue) byPath
             else (h, byPath)) = (h1, byPath ++ byValue)
            ∧ Forall (λ rule, Type_ rule = KeepParentIfValueMatches) byValue
            ∧ (length byValue ≤ if String.eqb keepIfValue EmptyString then 0
                                 else length (strings_Split "," keepIfValue))%nat)
    as (h1 & byValue & -> & HbyValue & HlenValue).
  { destruct (String.eqb keepIfValue EmptyString); cbn [negb].
    - exists h, []. by rewrite app_nil_r.
    - destruct (keepIfValueLoop_new (strings_Split "," keepIfValue) h byPath)
        as (new & Hnew & Htype & Hlen).
      destruct (Cmd.keepIfValueLoop _ _ _) as [h1 rules1]. cbn [snd] in Hnew.
      subst rules1. by exists h1, new. }
  destruct (String.eqb keepArrayMatch EmptyString); cbn [negb snd].
  - exists byValue, []. rewrite app_nil_r. by repeat split.
  - destruct (keepArrayMatchLoop_new (strings_Split "," keepArrayMatch) h1
                (byPath ++ byValue)) as (new & Hnew & Htype & Hlen).
    exists byValue, new. rewrite Hnew, <- app_assoc. by repeat split.
Qed.

(** [CutWithRules] with rules of recognized types. *)
Lemma CutWithRules_recognized `{JSONCodec} (h : heap) (jsonData : string)
    (rules : list Rule) :
  Forall recognized rules → CutWithRules h jsonData rules ≠ Err ErrInvalidRule.
Proof.
  intros Hrec. unfold CutWithRules.
  destruct (Nat.eqb _ _); [done|].
  destruct (json_Unmarshal h jsonData) as [[h1 data]|]; [|done].
  pose proof (applyRules_error_cases h1 data rules ErrInvalidRule) as Herr.
  destruct (applyRules h1 data rules) as [[h2 result]|e|]; [| |done].
  - by destruct (json_Marshal h2 result).
  - intros [= ->]. destruct (Herr eq_refl) as [?|[?|[_ Hnot]]]; done.
Qed.

(** X22.  [buildRules] orders the rules by flag, not by position on the
    command line: the path rules come first, then the rules of
    [-keep-if-value], then those of [-keep-array-match]; each flag gives at
    most one rule for each of its comma-separated items, and an empty flag
    gives none. *)
Theorem buildRules_by_flag `{Strings} `{JSONCodec} (h : heap)
    (paths keepIfValue keepArrayMatch : string) :
  ∃ byPath byValue byArray,
    (Cmd.buildRules h paths keepIfValue keepArrayMatch).2
    = byPath ++ byValue ++ byArray
    ∧ Forall (λ rule, Type_ rule = KeepPath) byPath
    ∧ Forall (λ rule, Type_ rule = KeepParentIfValueMatches) byValue
    ∧ Forall (λ rule, Type_ rule = KeepArrayElementsIfChildValueMatches) byArray
    ∧ (length byPath ≤ length (strings_Split "," paths))%nat
    ∧ (length byValue ≤ length (strings_Split "," keepIfValue))%nat
    ∧ (length byArray ≤ length (strings_Split "," keepArrayMatch))%nat
    ∧ (paths = EmptyString → byPath = [])
    ∧ (keepIfValue = EmptyString → byValue = [])
    ∧ (keepArrayMatch = EmptyString → byArray = []).
Proof.
  destruct (buildRules_parts h paths keepIfValue keepArrayMatch)
    as (byValue & byArray & Hrules & HbyValue & HlenValue & HbyArray & HlenArray).
  eexists _, byValue, byArray. split; [exact Hrules|].
  split.
  { destruct (String.eqb paths EmptyString); [constructor|].
    apply Forall_map. by apply Forall_true. }
  split; [exact HbyValue|]. split; [exact HbyArray|].
  split.
  { destruct (String.eqb paths EmptyString); cbn [length]; [lia|].
    rewrite length_map.
    etransitivity; [apply List.filter_length_le|]. by rewrite length_map. }
  split; [destruct (String.eqb keepIfValue EmptyString); lia|].
  split; [destruct (String.eqb keepArrayMatch EmptyString); lia|].
  split; [by intros ->|].
  split.
  - intros ->. cbn in HlenValue. destruct byValue; [done|cbn in HlenValue; lia].
  - intros ->. cbn in HlenArray. destruct byArray; [done|cbn in HlenArray; lia].
Qed.

(** X23.  The rules of the command line all have a recognized type, so
    [CutWithRules] with them never returns [ErrInvalidRule]. *)
Theorem buildRules_recognized `{Strings} `{JSONCodec} (h : heap)
    (paths keepIfValue keepArrayMatch : string) :
  Forall recognized (Cmd.buildRules h paths keepIfValue keepArrayMatch).2
  ∧ ∀ (h0 : heap) (jsonData : string),
      CutWithRules h0 jsonData
        (Cmd.buildRules h paths keepIfValue keepArrayMatch).2
      ≠ Err ErrInvalidRule.
Proof.
  assert (Forall recognized
            (Cmd.buildRules h paths keepIfValue keepArrayMatch).2) as Hrec.
  { destruct (buildRules_parts h paths keepIfValue keepArrayMatch)
      as (byValue & byArray & -> & HbyValue & _ & HbyArray & _).
    rewrite !Forall_app. split; [|split].
    - destruct (String.eqb paths EmptyString); [constructor|].
      apply Forall_map, Forall_true. intros path. by left.
    - eapply Forall_impl; [exact HbyValue|]. intros rule Hrule. right. by left.
    - eapply Forall_impl; [exact HbyArray|]. intros rule Hrule. right. by right. }
  split; [exact Hrec|].
  intros h0 jsonData. by apply CutWithRules_recognized.
Qed.

(** X24.  The rules of the [-path] flag alone: one [KeepPath] rule for each
    comma-separated item that is not empty after trimming, in the order of
    the items and with the trimmed item as its path; nothing is decoded,
    so the heap is as before. *)
Theorem buildRules_paths `{Strings} `{JSONCodec} (h : heap) (paths : string) :
  paths ≠ EmptyString →
  Cmd.buildRules h paths EmptyString EmptyString
  = (h, map NewKeepPathRule
          (List.filter (λ path, negb (String.eqb path EmptyString))
             (map strings_TrimSpace (strings_Split "," paths)))).
Proof.
  intros Hpaths%String.eqb_neq.
  unfold Cmd.buildRules. cbv zeta. rewrite Hpaths. cbn [String.eqb negb].
  by rewrite keepPathLoop_filter.
Qed.

Lemma buildRules_paths_witness :
  @Cmd.buildRules CmdExamples.asciiStrings Examples.shopCodec []
    "user.name, ,user.age" EmptyString EmptyString
  = ([], [NewKeepPathRule "user.name"; NewKeepPathRule "user.age"]).
Proof.
  apply (@buildRules_paths CmdExamples.asciiStrings Examples.shopCodec []
           "user.name, ,user.age").
  discriminate.
Defined.

(** The items of [-keep-if-value] without [=] give no rule. *)
Lemma keepIfValueLoop_ignores `{Strings} `{JSONCodec} (pairs : list string) :
  Forall (λ item, byteFree "=" (strings_TrimSpace item) = true) pairs →
  ∀ h rules, Cmd.keepIfValueLoop h pairs rules = (h, rules).
Proof.
  induction 1 as [|item rest Hitem Hrest IH]; intros h rules;
    cbn [Cmd.keepIfValueLoop]; [done|].
  cbv zeta. rewrite (strings_SplitN_2_byteFree _ _ Hitem).
  destruct (String.eqb _ _); apply IH.
Qed.

(** X25.  An item of [-keep-if-value] that has no [=] is ignored: when no
    item has one, [buildRules] gives no rule, and no error. *)
Theorem buildRules_ignores_items_without_equals `{Strings} `{JSONCodec}
    (h : heap) (keepIfValue : string) :
  Forall (λ item, byteFree "=" (strings_TrimSpace item) = true)
    (strings_Split "," keepIfValue) →
  Cmd.buildRules h EmptyString keepIfValue EmptyString = (h, []).
Proof.
  intros Hitems. unfold Cmd.buildRules. cbv zeta. cbn [String.eqb negb].
  destruct (String.eqb keepIfValue EmptyString); cbn [negb]; [done|].
  by rewrite keepIfValueLoop_ignores.
Qed.

Lemma buildRules_ignores_items_without_equals_witness :
  @Cmd.buildRules CmdExamples.asciiStrings Examples.shopCodec []
    EmptyString "user.preferences.theme" EmptyString
  = ([], []).
Proof.
  apply (@buildRules_ignores_items_without_equals CmdExamples.asciiStrings
           Examples.shopCodec [] "user.preferences.theme").
  apply List.Forall_cons; [reflexivity|apply List.Forall_nil].
Defined.

(** X26.  A single condition of [-keep-if-value] is cut at its first [=]:
    the trimmed text before it is the path of the rule, and the trimmed
    text after it, which may hold further [=], is the expected value,
    decoded as JSON or, when it is not JSON, taken as a string. *)
Theorem buildRules_condition `{Strings} `{JSONCodec} (h : heap)
    (keepIfValue path value : string) :
  keepIfValue ≠ EmptyString →
  byteFree "," keepIfValue = true →
  strings_TrimSpace keepIfValue = path +:+ String "=" value →
  byteFree "=" path = true →
  Cmd.buildRules h EmptyString keepIfValue EmptyString
  = match json_Unmarshal h (strings_TrimSpace value) with
    | Some (h', expected) =>
        (h', [NewKeepParentIfValueMatchesRule (strings_TrimSpace path) expected])
    | None =>
        (h, [NewKeepParentIfValueMatchesRule (strings_TrimSpace path)
               (VString (strings_TrimSpace value))])
    end.
Proof.
  intros Hflag%String.eqb_neq Hone Htrim Hpath.
  unfold Cmd.buildRules. cbv zeta. cbn [String.eqb negb].
  rewrite Hflag. cbn [negb].
  rewrite (strings_Split_byteFree _ _ Hone). cbn [Cmd.keepIfValueLoop].
  cbv zeta. rewrite Htrim, (strings_SplitN_2_first _ _ _ Hpath).
  assert (String.eqb (path +:+ String "=" value) EmptyString = false) as ->
    by (apply String.eqb_neq; by destruct path).
  unfold Cmd.parsedValue.
  by destruct (json_Unmarshal h (strings_TrimSpace value)) as [[h' expected]|].
Qed.

Lemma buildRules_condition_witness :
  @Cmd.buildRules CmdExamples.asciiStrings Examples.shopCodec []
    EmptyString " query = a=b " EmptyString
  = ([], [NewKeepParentIfValueMatchesRule "query" (VString "a=b")]).
Proof.
  apply (@buildRules_condition CmdExamples.asciiStrings Examples.shopCodec []
           " query = a=b " "query " " a=b");
    [discriminate|reflexivity|reflexivity|reflexivity].
Defined.

(** ** The array filter *)

(** X27.  For an array at the rule's array path the outcome of the array
    rule is: the panic, when the child navigation panics at some element;
    otherwise the rule keeps exactly the elements from which the child path
    resolves to a value deep-equal to the expected value ([List.filter]
    keeps them in their order and as they are; an element whose child
    navigation returns an error is left out), hands them to the assembler
    at the array path, and when no element is kept leaves the heap, and so
    the result map, unchanged. *)
Theorem applyKeepArrayElementsIfChildValueMatchesRule_filters (h : heap)
    (data expectedValue : value) (arrayPath childPath : string) (result : loc)
    (array : list value) :
  navigateToValue h data (splitDot arrayPath) = Ok (VSlice array) →
  applyKeepArrayElementsIfChildValueMatchesRule h data arrayPath childPath
    expectedValue result
  = (if existsb (childPanics h (splitDot childPath)) array then Panic
     else match List.filter (childMatches h (splitDot childPath) expectedValue)
                  array with
          | [] => Ok h
          | kept => Ok (buildResultStructure h result (splitDot arrayPath)
                          (VSlice kept))
          end)
  ∧ ∀ element,
      In element (List.filter (childMatches h (splitDot childPath) expectedValue)
                    array)
      ↔ In element array
        ∧ ∃ childValue,
            navigateToValue h element (splitDot childPath) = Ok childValue
            ∧ valueEquals h childValue expectedValue = true.
Proof.
  intros Hnav. split.
  - unfold applyKeepArrayElementsIfChildValueMatchesRule; cbv zeta.
    rewrite Hnav, filterElements_filter, app_nil_l.
    destruct (existsb _ array); [reflexivity|].
    by destruct (List.filter _ array).
  - intros element. rewrite filter_In. unfold childMatches.
    destruct (navigateToValue h element (splitDot childPath)) as [cv|e|].
    + split; [intros [Hin Heq]; eauto|intros [Hin (cv' & [= <-] & Heq)]; eauto].
    + split; [intros [_ ?]; done|intros [_ (cv' & ? & _)]; done].
    + split; [intros [_ ?]; done|intros [_ (cv' & ? & _)]; done].
Qed.

Lemma applyKeepArrayElementsIfChildValueMatchesRule_filters_witness :
  applyKeepArrayElementsIfChildValueMatchesRule Examples.shopAtRules Examples.shop
    "orders" "product" (VString "Phone") Examples.shopResult
  = Ok (buildResultStructure Examples.shopAtRules Examples.shopResult ["orders"]
          (VSlice [VMap 4%nat]))
  ∧ applyKeepArrayElementsIfChildValueMatchesRule Examples.shopAtRules Examples.shop
      "orders" "product" (VString "Tablet") Examples.shopResult
    = Ok Examples.shopAtRules.
Proof.
  split.
  - destruct (applyKeepArrayElementsIfChildValueMatchesRule_filters
                Examples.shopAtRules Examples.shop (VString "Phone") "orders"
                "product" Examples.shopResult [VMap 3%nat; VMap 4%nat])
      as [-> _]; evaluate.
  - destruct (applyKeepArrayElementsIfChildValueMatchesRule_filters
                Examples.shopAtRules Examples.shop (VString "Tablet") "orders"
                "product" Examples.shopResult [VMap 3%nat; VMap 4%nat])
      as [-> _]; evaluate.
Defined.

(** ** Index arithmetic *)

(** X28.  For every decimal segment whose number fits Go's [int] (below
    2^63), with or without a leading [-], navigation from an array
    goes on from the element the index addresses: element [i] for an index
    [i >= 0], element [length + i] for a negative [i]; when that lies
    outside the array the result is [ErrPathNotFound].  In particular the
    segment [-1] and a segment for [length - 1] lead to the same result. *)
Theorem navigateToValue_array_index (h : heap) (array : list value)
    (rest : list string) (negative : bool) (ds : list nat) :
  ds ≠ [] →
  Forall (λ d, (d < 10)%nat) ds →
  digitsValue 0 ds < 2 ^ 63 →
  let i := if negative then - digitsValue 0 ds else digitsValue 0 ds in
  navigateToValue h (VSlice array) (decimalSegment negative ds :: rest)
  = match elementAt array i with
    | Some element => navigateToValue h element rest
    | None => Err ErrPathNotFound
    end
  ∧ elementAt array i
    = (if (0 <=? i) && (i <? Z.of_nat (length array))
       then array !! Z.to_nat i
       else if (i <? 0) && (- Z.of_nat (length array) <=? i)
       then array !! Z.to_nat (Z.of_nat (length array) + i)
       else None)
  ∧ (i = Z.of_nat (length array) - 1 →
     navigateToValue h (VSlice array) ("-1" :: rest)
     = navigateToValue h (VSlice array) (decimalSegment negative ds :: rest)).
Proof.
  intros Hne Hds Hmax i.
  pose proof (navigateToValue_decimalSegment h array rest negative ds
                Hne Hds Hmax) as Hnav.
  fold i in Hnav.
  split; [exact Hnav|split].
  - unfold elementAt.
    destruct (Z.ltb_spec i 0), (Z.leb_spec 0 i),
      (Z.ltb_spec i (Z.of_nat (length array))),
      (Z.leb_spec (- Z.of_nat (length array)) i); cbn [andb orb];
      try lia;
      repeat match goal with
             | |- context [?a <? ?b] => destruct (Z.ltb_spec a b); try lia
             | |- context [?a >=? ?b] =>
                 rewrite (Z.geb_leb a b); destruct (Z.leb_spec b a); try lia
             end; cbn [orb]; reflexivity.
  - intros Hlast. rewrite Hnav, Hlast, <- elementAt_last.
    apply (navigateToValue_decimalSegment h array rest true [1%nat]);
      [done|repeat constructor|reflexivity].
Qed.

Lemma navigateToValue_array_index_witness :
  navigateToValue Examples.shopHeap (VSlice [VMap 3%nat; VMap 4%nat]) ["-1"; "id"]
  = Ok (VNum (num 2))
  ∧ navigateToValue Examples.shopHeap (VSlice [VMap 3%nat; VMap 4%nat]) ["-3"; "id"]
    = Err ErrPathNotFound
  ∧ navigateToValue Examples.shopHeap (VSlice [VMap 3%nat; VMap 4%nat]) ["2"; "id"]
    = Err ErrPathNotFound
  ∧ navigateToValue Examples.shopHeap (VSlice [VMap 3%nat; VMap 4%nat]) ["-1"; "id"]
    = navigateToValue Examples.shopHeap (VSlice [VMap 3%nat; VMap 4%nat]) ["1"; "id"].
Proof.
  assert (∀ d : nat, (d < 10)%nat → Forall (λ d, (d < 10)%nat) [d]) as Hdigit
    by (intros d Hd; by apply Forall_singleton).
  split; [|split; [|split]].
  - exact (proj1 (navigateToValue_array_index Examples.shopHeap
                    [VMap 3%nat; VMap 4%nat] ["id"] true [1%nat]
                    ltac:(done) (Hdigit 1%nat ltac:(lia)) eq_refl)).
  - exact (proj1 (navigateToValue_array_index Examples.shopHeap
                    [VMap 3%nat; VMap 4%nat] ["id"] true [3%nat]
                    ltac:(done) (Hdigit 3%nat ltac:(lia)) eq_refl)).
  - exact (proj1 (navigateToValue_array_index Examples.shopHeap
                    [VMap 3%nat; VMap 4%nat] ["id"] false [2%nat]
                    ltac:(done) (Hdigit 2%nat ltac:(lia)) eq_refl)).
  - exact (proj2 (proj2 (navigateToValue_array_index Examples.shopHeap
                    [VMap 3%nat; VMap 4%nat] ["id"] false [1%nat]
                    ltac:(done) (Hdigit 1%nat ltac:(lia)) eq_refl)) eq_refl).
Defined.

(** ** The parent rule *)

(** X29.  A [KeepParentIfValueMatches] rule whose value matches keeps the
    whole parent.  Let the kept path be the path without its last segment,
    or the path itself when it has one segment.  When no segment after the
    first of the kept path is numeric, the result holds at the kept path
    the value the document holds there; so the matched value is found in
    the result at the rule's path, and so is, at its path, everything that
    is found in the document below the kept path, the sibling fields of
    the matched value included.  No map of the document is written. *)
Theorem KeepParentIfValueMatches_keeps_siblings (h : heap)
    (data expectedValue v : value) (path : string) :
  navigateToValue h data (splitDot path) = Ok v →
  valueEquals (makeMap h).1 v expectedValue = true →
  let kept := if (1 <? length (splitDot path))%nat
              then removelast (splitDot path) else splitDot path in
  Forall (λ s, isNumeric s = false) (tail kept) →
  ∃ h' keptValue,
    applyRules h data [NewKeepParentIfValueMatchesRule path expectedValue]
    = Ok (h', VMap (length h))
    ∧ navigateToValue h data kept = Ok keptValue
    ∧ navigateToValue h' (VMap (length h)) kept = Ok keptValue
    ∧ navigateToValue h' (VMap (length h)) (splitDot path) = Ok v
    ∧ (∀ below u,
         navigateToValue h keptValue below = Ok u →
         navigateToValue h' (VMap (length h)) (kept ++ below) = Ok u)
    ∧ ∀ r, (r < length h)%nat → h' !! r = h !! r.
Proof.
  intros Hnav Heq kept Hobj.
  set (result := length h). set (h0 := h ++ [∅]).
  assert (h0 !! result = Some (∅ : gmap string value)) as Hres0
    by (unfold h0, result; by rewrite lookup_app_r, Nat.sub_diag by lia).
  assert (navigateToValue h0 data (splitDot path) = Ok v) as Hnav0.
  { pose proof (navigateToValue_makeMap h (splitDot path) data) as Hmk.
    unfold makeMap in Hmk; cbn [fst] in Hmk. fold h0 in Hmk. by rewrite Hmk. }
  (* the kept path, its value, and what is left of the rule's path *)
  assert (∃ keptValue last,
            splitDot path = kept ++ last
            ∧ navigateToValue h data kept = Ok keptValue
            ∧ navigateToValue h keptValue last = Ok v
            ∧ kept ≠ [])
    as (keptValue & last & Hsplit & Hkept & Hlast & Hne).
  { unfold kept. destruct (Nat.ltb_spec 1 (length (splitDot path))) as [Hlen|Hlen].
    - pose proof (app_removelast_last EmptyString (splitDot_nonempty path))
        as Hsplit.
      pose proof Hnav as Hnav'. rewrite Hsplit, navigateToValue_app in Hnav'.
      destruct (navigateToValue h data (removelast (splitDot path)))
        as [parentValue|e|]; [|discriminate..].
      exists parentValue, [List.last (splitDot path) EmptyString].
      split; [exact Hsplit|]. split; [reflexivity|]. split; [exact Hnav'|].
      intros Hnil. rewrite Hnil in Hsplit. rewrite Hsplit in Hlen.
      cbn in Hlen. lia.
    - exists v, []. rewrite app_nil_r.
      split; [done|]. split; [done|]. split; [done|apply splitDot_nonempty]. }
  assert (navigateToValue h0 data kept = Ok keptValue) as Hkept0.
  { pose proof (navigateToValue_makeMap h kept data) as Hmk.
    unfold makeMap in Hmk; cbn [fst] in Hmk. fold h0 in Hmk. by rewrite Hmk. }
  (* the rule *)
  set (h1 := buildResultStructure h0 result kept keptValue).
  assert (applyKeepParentIfValueMatchesRule h0 data path expectedValue result
          = Ok h1) as Hrule.
  { unfold applyKeepParentIfValueMatchesRule; cbv zeta.
    unfold makeMap in Heq; cbn [fst] in Heq. fold h0 in Heq.
    rewrite Hnav0, Heq. cbn [negb]. unfold h1, kept in *.
    destruct (1 <? length (splitDot path))%nat.
    - by rewrite take_pred_length_removelast, Hkept0.
    - rewrite Hkept in Hnav. by injection Hnav as ->. }
  destruct (buildResultStructure_fresh keptValue kept h0 result Hne Hobj Hres0)
    as (Hback & Hlen1 & Hframe1).
  fold h1 in Hback, Hlen1, Hframe1.
  assert (∀ r, (r < length h)%nat → h1 !! r = h !! r) as Hdoc1.
  { intros r Hr. rewrite Hframe1.
    - unfold h0. by rewrite lookup_app_l.
    - unfold h0. rewrite length_app. cbn. lia.
    - unfold result. lia. }
  assert (∀ below u,
            navigateToValue h keptValue below = Ok u →
            navigateToValue h1 (VMap result) (kept ++ below) = Ok u) as Hbelow.
  { intros below u Hu. rewrite navigateToValue_app, Hback. cbn [andThen].
    apply (navigateToValue_frame h h1); [|exact Hu].
    intros r key Hr _. by apply mapIndex_lookup, Hdoc1. }
  exists h1, keptValue.
  split; [|split; [exact Hkept|split; [exact Hback|split; [|split]]]].
  - unfold applyRules, makeMap. fold h0 result. cbn [applyRulesLoop].
    unfold applyRule, NewKeepParentIfValueMatchesRule; cbn.
    by rewrite Hrule.
  - rewrite Hsplit. by apply Hbelow.
  - exact Hbelow.
  - exact Hdoc1.
Qed.

Lemma KeepParentIfValueMatches_keeps_siblings_witness :
  ∃ h' keptValue,
    applyRules Examples.shopHeap Examples.shop
      [NewKeepParentIfValueMatchesRule "user.preferences.theme" (VString "dark")]
    = Ok (h', VMap 5%nat)
    ∧ navigateToValue Examples.shopHeap Examples.shop ["user"; "preferences"]
      = Ok keptValue
    ∧ navigateToValue h' (VMap 5%nat) ["user"; "preferences"] = Ok keptValue
    ∧ navigateToValue h' (VMap 5%nat) (splitDot "user.preferences.theme")
      = Ok (VString "dark")
    ∧ (∀ below u,
         navigateToValue Examples.shopHeap keptValue below = Ok u →
         navigateToValue h' (VMap 5%nat) (["user"; "preferences"] ++ below)
         = Ok u)
    ∧ ∀ r, (r < 5)%nat → h' !! r = Examples.shopHeap !! r.
Proof.
  apply (KeepParentIfValueMatches_keeps_siblings Examples.shopHeap Examples.shop
           (VString "dark") (VString "dark") "user.preferences.theme");
    [evaluate|evaluate|].
  apply List.Forall_cons; [reflexivity|apply List.Forall_nil].
Defined.
